(** * BigFileFinder: a model of [FileScannerGUI] and its scan / sort / delete pipeline

    The development embeds the methods of [class FileScannerGUI]
    (BigFileFinder.py) as functions over an explicit application state and
    proves the properties of the scan loop, the periodic and final sort, and
    the bulk deletion.

    Conventions.
    - Python integers are [Z]; strings are [string]; a Python list is a [list].
    - A record of the file list is the tuple [(size, path)] of the source.
    - The attributes of [self] form the record [App].  The Tk widgets are kept
      as plain data: the rows of the tree view, the state of the buttons, the
      status line, and the log of message boxes that were shown.
    - What the operating system answers ([os.walk], [os.path.getsize],
      [os.remove]) and what the user answers (the confirmation dialog, the
      moment the Stop button is pressed) are inputs of the model. *)

From Stdlib Require Import ZArith List Sorted Permutation Lia Bool Ascii String.
From Stdlib Require Import Decimal DecimalString DecimalZ DecimalPos.
From stdpp Require Import base tactics option list gmap strings sorting.

Local Open Scope Z_scope.

(** ** The record of a file: the tuple [(size, path)] *)

Module Rec.

Abbreviation FileRecord := (Z * string)%type.

Definition size (r : FileRecord) : Z := fst r.
Definition path (r : FileRecord) : string := snd r.

(** [a] may stand before [b] in a list sorted largest first. *)
Definition size_ge (a b : FileRecord) : Prop := size b <= size a.

End Rec.
Export Rec.

(** ** [list.sort(reverse = True, key = lambda x: x[0])]

    Python's sort is stable, and with [reverse = True] the records of equal
    key keep their original relative order.  A stable sort is determined by
    its key, so an insertion sort that puts a record in front of the first
    record that is not larger computes the same list. *)

Module Sort.

Fixpoint insert_desc (x : FileRecord) (l : list FileRecord) : list FileRecord :=
  match l with
  | [] => [x]
  | y :: l' => if size x <? size y then y :: insert_desc x l' else x :: y :: l'
  end.

Fixpoint sort_desc (l : list FileRecord) : list FileRecord :=
  match l with
  | [] => []
  | x :: l' => insert_desc x (sort_desc l')
  end.

(** Every adjacent pair [(a, b)] of the list has [a.size >= b.size]. *)
Definition adjacent_desc (l : list FileRecord) : Prop :=
  forall (i : nat) (a b : FileRecord),
    l !! i = Some a -> l !! S i = Some b -> size a >= size b.

End Sort.
Export Sort.

(** ** The size column of the tree view

    [populate_tree] writes the size as [f"{size:,}"] and [delete_selected]
    reads it back with [int(values[0].replace(",", ''))]. *)

Module Render.

(** The digits of a numeral, as characters. *)
Definition digits_of_uint (d : Decimal.uint) : list ascii :=
  list_ascii_of_string (NilZero.string_of_uint d).

(** A comma in front of every group of three digits but the first; the
    digits come last digit first, [k] of them are in the group at hand. *)
Fixpoint group_rev (k : nat) (digits : list ascii) : list ascii :=
  match digits with
  | [] => []
  | c :: digits' =>
      if decide (k = 3%nat) then ","%char :: c :: group_rev 1 digits'
      else c :: group_rev (S k) digits'
  end.

Definition with_separators (digits : list ascii) : list ascii :=
  reverse (group_rev 0 (reverse digits)).

(** [f"{n:,}"] *)
Definition format_thousands (n : Z) : string :=
  match Z.to_int n with
  | Decimal.Pos d => string_of_list_ascii (with_separators (digits_of_uint d))
  | Decimal.Neg d => String "-" (string_of_list_ascii (with_separators (digits_of_uint d)))
  end.

(** [s.replace(",", '')] *)
Fixpoint remove_commas (s : string) : string :=
  match s with
  | EmptyString => EmptyString
  | String c s' => if decide (c = ","%char) then remove_commas s' else String c (remove_commas s')
  end.

(** [int(s)] for a decimal numeral with an optional minus sign, which is
    what the size column holds; [None] stands for [ValueError].  The other
    spellings [int] accepts (blanks around the numeral, a plus sign,
    underscores) are not needed for the tree and are rejected here. *)
Definition int_of_str (s : string) : option Z :=
  Z.of_int <$> NilZero.int_of_string s.

End Render.
Export Render.

(** ** The widgets, as data *)

(** The status line.  The f-strings of the source are kept as structured
    values: the numbers they print, not their rendering. *)
Inductive Status :=
| StReady                              (* "Ready" *)
| StStopping                           (* "Stopping scan..." *)
| StScanning (file_count : Z)          (* "Scanning... {file_count} files found" *)
| StFinalizing (file_count : Z)        (* "Finalizing... sorting {file_count} files" *)
| StComplete (file_count total_size : Z)
                                       (* "Scan complete: {file_count} files found, Total size: ..." *)
| StCancelled (file_count : Z).        (* "Scan cancelled: {file_count} files found before stopping" *)

(** The message boxes the program shows. *)
Inductive Dialog :=
| DlgScanError (msg : string)          (* showerror("Scan Error", str(e)) *)
| DlgNoSelection                       (* showinfo("No Selection", ...) *)
| DlgConfirmDeletion (n : nat) (total_size : Z)
                                       (* askyesno("Confirm Deletion", ...) *)
| DlgDeletionErrors (deleted : Z) (failed : list (string * string))
                                       (* showwarning("Deletion Complete with Errors", ...) *)
| DlgDeletionComplete (deleted : Z) (total_size : Z).
                                       (* showinfo("Deletion Complete", ...) *)

(** The buttons ([true] is [tk.NORMAL], [false] is [tk.DISABLED]) and the
    progress bar ([true] while it runs). *)
Record Widgets := mkWidgets {
  scan_btn : bool;
  stop_btn : bool;
  browse_btn : bool;
  delete_btn : bool;
  select_all_btn : bool;
  clear_btn : bool;
  progress : bool
}.

(** A row of the tree view: its columns "size" and "path" (the column
    "size_mb" is a rounded float that nothing reads back, it is left out)
    and whether the row is part of the current selection. *)
Record TreeRow := mkRow {
  row_size : string;
  row_path : string;
  row_selected : bool
}.

(** ** The attributes of [self] *)

Record App := mkApp {
  file_list : list FileRecord;
  scanning : bool;
  sort_threshold : Z;
  files_since_sort : Z;
  path_var : string;
  status_var : Status;
  tree : list TreeRow;
  widgets : Widgets;
  dialogs : list Dialog
}.

Definition set_file_list (l : list FileRecord) (a : App) : App :=
  mkApp l (scanning a) (sort_threshold a) (files_since_sort a) (path_var a)
        (status_var a) (tree a) (widgets a) (dialogs a).
Definition set_scanning (b : bool) (a : App) : App :=
  mkApp (file_list a) b (sort_threshold a) (files_since_sort a) (path_var a)
        (status_var a) (tree a) (widgets a) (dialogs a).
Definition set_files_since_sort (n : Z) (a : App) : App :=
  mkApp (file_list a) (scanning a) (sort_threshold a) n (path_var a)
        (status_var a) (tree a) (widgets a) (dialogs a).
Definition set_path_var (p : string) (a : App) : App :=
  mkApp (file_list a) (scanning a) (sort_threshold a) (files_since_sort a) p
        (status_var a) (tree a) (widgets a) (dialogs a).
Definition set_status_var (s : Status) (a : App) : App :=
  mkApp (file_list a) (scanning a) (sort_threshold a) (files_since_sort a) (path_var a)
        s (tree a) (widgets a) (dialogs a).
Definition set_tree (t : list TreeRow) (a : App) : App :=
  mkApp (file_list a) (scanning a) (sort_threshold a) (files_since_sort a) (path_var a)
        (status_var a) t (widgets a) (dialogs a).
Definition set_widgets (w : Widgets) (a : App) : App :=
  mkApp (file_list a) (scanning a) (sort_threshold a) (files_since_sort a) (path_var a)
        (status_var a) (tree a) w (dialogs a).
Definition show_dialog (d : Dialog) (a : App) : App :=
  mkApp (file_list a) (scanning a) (sort_threshold a) (files_since_sort a) (path_var a)
        (status_var a) (tree a) (widgets a) (dialogs a ++ [d]).

(** [__init__] followed by [setup_ui]: nothing scanned, every button but
    Browse disabled. *)
Definition init : App :=
  {| file_list := [];
     scanning := false;
     sort_threshold := 100;
     files_since_sort := 0;
     path_var := "No folder selected";
     status_var := StReady;
     tree := [];
     widgets := mkWidgets false false true false false false false;
     dialogs := [] |}.

(** [browse_folder]: [folder] is what the directory dialog returned, the
    empty string when it was dismissed. *)
Definition browse_folder (folder : string) (a : App) : App :=
  if decide (folder = EmptyString) then a
  else set_widgets (mkWidgets true (stop_btn (widgets a)) (browse_btn (widgets a))
                      (delete_btn (widgets a)) (select_all_btn (widgets a))
                      (clear_btn (widgets a)) (progress (widgets a)))
         (set_path_var folder a).

(** The two button configurations the scan switches between. *)
Definition widgets_scanning : Widgets := mkWidgets false true false false false false true.
Definition widgets_idle : Widgets := mkWidgets true false true true true true false.

(** [sort_files] *)
Definition sort_files (a : App) : App := set_file_list (sort_desc (file_list a)) a.

(** [update_status] *)
Definition update_status (message : Status) (a : App) : App := set_status_var message a.

(** The row [self.tree.insert('', tk.END, values = (f"{size:,}", ..., path))]
    adds for a record. *)
Definition row_of (r : FileRecord) : TreeRow :=
  mkRow (format_thousands (size r)) (path r) false.

(** [populate_tree]: the old rows are dropped and one unselected row is
    inserted per record, in the order of the file list. *)
Definition populate_tree (a : App) : App :=
  set_tree (fmap row_of (file_list a)) a.

(** [sum(size for size, _ in self.file_list)] *)
Definition total_size (l : list FileRecord) : Z := fold_right (fun r acc => size r + acc) 0 l.

(** [finalize_scan] *)
Definition finalize_scan (file_count : Z) (a : App) : App :=
  let a := set_status_var (StFinalizing file_count) a in
  let a := sort_files a in
  let a := populate_tree a in
  let a := set_scanning false a in
  let a := set_widgets widgets_idle a in
  set_status_var (StComplete file_count (total_size (file_list a))) a.

(** [scan_cancelled] *)
Definition scan_cancelled (file_count : Z) (a : App) : App :=
  let a := set_status_var (StCancelled file_count) a in
  let a := sort_files a in
  let a := populate_tree a in
  let a := set_scanning false a in
  set_widgets widgets_idle a.

(** [stop_scan] *)
Definition stop_scan (a : App) : App :=
  set_status_var StStopping (set_scanning false a).

(** [select_all] and [clear_selection] *)
Definition select_all (a : App) : App :=
  set_tree (fmap (fun row => mkRow (row_size row) (row_path row) true) (tree a)) a.
Definition clear_selection (a : App) : App :=
  set_tree (fmap (fun row => mkRow (row_size row) (row_path row) false) (tree a)) a.

(** ** Starting a scan *)

(** How a call of a method ends: it returns (and may have spawned the scan
    thread), or it raises an exception of the named class. *)
Inductive Completion :=
| Returned (a : App) (spawned : bool)
| Raised (exc : string) (a : App).

(** [start_scan] *)
Definition start_scan (a : App) : Completion :=
  if scanning a then Returned a false
  else
    let a := set_file_list [] a in
    let a := set_tree [] a in
    let a := set_files_since_sort 0 a in
    let a := set_scanning true a in
    let a := set_widgets widgets_scanning a in
    Returned a true.

(** ** What the operating system answers during a scan *)

(** [os.path.getsize(filepath)]: the size, an [OSError] (which covers
    [PermissionError] and [FileNotFoundError]), or any other exception. *)
Inductive StatResult :=
| StatOk (size : Z)
| StatOSError
| StatError (msg : string).

(** The sequence [os.walk(root_path)] yields, with the answer of
    [os.path.getsize] for each file name: the walk ends, raises, or yields
    [(dirpath, dirnames, filenames)] and goes on. *)
Inductive Walk :=
| WalkEnd
| WalkRaise (msg : string)
| WalkDir (dirpath : string) (filenames : list (string * StatResult)) (rest : Walk).

(** [os.path.join(dirpath, filename)], as [posixpath.join] computes it. *)
Definition starts_with_sep (s : string) : bool :=
  match s with
  | String c _ => if decide (c = "/"%char) then true else false
  | EmptyString => false
  end.

Fixpoint ends_with_sep (s : string) : bool :=
  match s with
  | EmptyString => false
  | String c EmptyString => if decide (c = "/"%char) then true else false
  | String _ s' => ends_with_sep s'
  end.

Definition path_join (dirpath filename : string) : string :=
  if starts_with_sep filename then filename
  else if decide (dirpath = EmptyString) then filename
  else if ends_with_sep dirpath then (dirpath ++ filename)%string
  else (dirpath ++ "/" ++ filename)%string.

(** ** The scan thread *)

(** What the scan thread hands to the main loop with [self.root.after(0, ...)]. *)
Inductive Callback :=
| CbUpdateStatus (message : Status)
| CbShowError (msg : string)
| CbFinalizeScan (file_count : Z)
| CbScanCancelled (file_count : Z).

(** The scan thread runs against the attributes it shares with the main
    thread.  The only thing the main thread does to them while a scan runs
    is [stop_scan] (every other button is disabled), so an interleaving is
    fixed by the number of reads of [self.scanning] the scan thread performs
    before [stop_scan] lands: [stop_in = Some n] says that the read number
    [n] (counted from 0) is the first that sees the stop, [None] that no
    stop arrives.  [posted] is the queue of callbacks scheduled so far. *)
Record Worker := mkWorker {
  app : App;
  stop_in : option nat;
  posted : list Callback
}.

Definition set_app (a : App) (w : Worker) : Worker := mkWorker a (stop_in w) (posted w).
Definition post (cb : Callback) (w : Worker) : Worker :=
  mkWorker (app w) (stop_in w) (posted w ++ [cb]).

(** One evaluation of [self.scanning] by the scan thread. *)
Definition read_scanning (w : Worker) : bool * Worker :=
  match stop_in w with
  | Some O => (false, mkWorker (stop_scan (app w)) None (posted w))
  | Some (S n) => (scanning (app w), mkWorker (app w) (Some n) (posted w))
  | None => (scanning (app w), w)
  end.

(** The periodic sort of the loop body:
    [if self.files_since_sort >= self.sort_threshold: self.sort_files(); self.files_since_sort = 0] *)
Definition resort_if_due (a : App) : App :=
  if files_since_sort a >=? sort_threshold a
  then set_files_since_sort 0 (sort_files a)
  else a.

(** The body of the inner [try] once [os.path.getsize] has answered [size]. *)
Definition record_file (filepath : string) (size : Z) (file_count : Z) (w : Worker)
  : Z * Worker :=
  let a := set_file_list (file_list (app w) ++ [(size, filepath)]) (app w) in
  let file_count := file_count + 1 in
  let a := set_files_since_sort (files_since_sort a + 1) a in
  let a := resort_if_due a in
  let w := set_app a w in
  let w := if file_count mod 100 =? 0
           then post (CbUpdateStatus (StScanning file_count)) w else w in
  (file_count, w).

#[global] Arguments read_scanning : simpl never.
#[global] Arguments record_file : simpl never.
#[global] Arguments resort_if_due : simpl never.

(** [for filename in filenames: ...]: the result is the exception that left
    the loop, if any ([break] and exhaustion both leave it normally). *)
Fixpoint scan_files (dirpath : string) (filenames : list (string * StatResult))
    (file_count : Z) (w : Worker) : option string * Z * Worker :=
  match filenames with
  | [] => (None, file_count, w)
  | (filename, stat) :: filenames' =>
      let '(running, w) := read_scanning w in
      if negb running then (None, file_count, w)
      else
        match stat with
        | StatOk size =>
            let '(file_count, w) := record_file (path_join dirpath filename) size file_count w in
            scan_files dirpath filenames' file_count w
        | StatOSError => scan_files dirpath filenames' file_count w
        | StatError msg => (Some msg, file_count, w)
        end
  end.

(** [for dirpath, dirnames, filenames in os.walk(root_path): ...] *)
Fixpoint scan_walk (walk : Walk) (file_count : Z) (w : Worker) : option string * Z * Worker :=
  match walk with
  | WalkEnd => (None, file_count, w)
  | WalkRaise msg => (Some msg, file_count, w)
  | WalkDir dirpath filenames rest =>
      let '(running, w) := read_scanning w in
      if negb running then (None, file_count, w)
      else
        match scan_files dirpath filenames file_count w with
        | (Some msg, file_count, w) => (Some msg, file_count, w)
        | (None, file_count, w) => scan_walk rest file_count w
        end
  end.

(** [scan_folder]; [os_walk] is the answer of [os.walk] for each root. *)
Definition scan_folder (os_walk : string -> Walk) (w : Worker) : Worker :=
  let root_path := path_var (app w) in
  let '(exc, file_count, w) := scan_walk (os_walk root_path) 0 w in
  let w := match exc with
           | Some msg => post (CbShowError msg) w
           | None => w
           end in
  let '(running, w) := read_scanning w in
  if running then post (CbFinalizeScan file_count) w
  else post (CbScanCancelled file_count) w.

(** ** The main loop *)

(** Running one scheduled callback in the main thread. *)
Definition run_callback (a : App) (cb : Callback) : App :=
  match cb with
  | CbUpdateStatus message => update_status message a
  | CbShowError msg => show_dialog (DlgScanError msg) a
  | CbFinalizeScan file_count => finalize_scan file_count a
  | CbScanCancelled file_count => scan_cancelled file_count a
  end.

(** The callbacks run in the order they were scheduled. *)
Definition mainloop (w : Worker) : App := fold_left run_callback (posted w) (app w).

(** A whole scan: the Start button, the scan thread under the interleaving
    [stop], then the scheduled callbacks. *)
Definition run_scan (os_walk : string -> Walk) (stop : option nat) (a : App) : App :=
  match start_scan a with
  | Returned a true => mainloop (scan_folder os_walk (mkWorker a stop []))
  | Returned a false => a
  | Raised _ a => a
  end.

(** The terminal notification the scan thread scheduled. *)
Inductive Terminal :=
| Completed (file_count : Z)
| Cancelled (file_count : Z).

Definition terminal (w : Worker) : option Terminal :=
  match last (posted w) with
  | Some (CbFinalizeScan n) => Some (Completed n)
  | Some (CbScanCancelled n) => Some (Cancelled n)
  | _ => None
  end.

(** ** Deleting the selected files *)

(** The files on disk, as far as [os.remove] is concerned: a path that can be
    removed maps to [None], a path whose removal is refused maps to the
    message of the [OSError] (permission denied, file in use, ...), and a
    path that is not bound does not exist. *)
Abbreviation FileSystem := (gmap string (option string)).

(** [os.remove(path)]: the file system without the file, or [str(e)]. *)
Definition os_remove (path : string) (fs : FileSystem) : FileSystem + string :=
  match fs !! path with
  | Some None => inl (delete path fs)
  | Some (Some msg) => inr msg
  | None => inr "No such file or directory"
  end.

(** [l.remove(r)] on a list that contains [r]: the first element equal to
    [r] goes. *)
Fixpoint remove_first (r : FileRecord) (l : list FileRecord) : list FileRecord :=
  match l with
  | [] => []
  | x :: l' => if decide (x = r) then l' else x :: remove_first r l'
  end.

(** [if (size, path) in self.file_list: self.file_list.remove((size, path))] *)
Definition remove_exact (r : FileRecord) (l : list FileRecord) : list FileRecord :=
  if bool_decide (r ∈ l) then remove_first r l else l.

(** The local state of the deletion loop. *)
Record Deletion := mkDeletion {
  del_fs : FileSystem;
  del_file_list : list FileRecord;
  deleted : Z;
  failed : list (string * string)
}.

(** [for size, path in files_to_delete: try: ... except Exception as e: ...] *)
Fixpoint delete_files (files_to_delete : list FileRecord) (d : Deletion) : Deletion :=
  match files_to_delete with
  | [] => d
  | (size, path) :: rest =>
      match os_remove path (del_fs d) with
      | inl fs' =>
          delete_files rest
            (mkDeletion fs' (remove_exact (size, path) (del_file_list d))
                        (deleted d + 1) (failed d))
      | inr msg =>
          delete_files rest
            (mkDeletion (del_fs d) (del_file_list d) (deleted d)
                        (failed d ++ [(path, msg)]))
      end
  end.

(** [self.tree.selection()]: the selected rows, in the order of the tree. *)
Definition selected_rows (a : App) : list TreeRow :=
  filter (fun row => row_selected row = true) (tree a).

(** The tuple [(size, path)] read from the columns of a row:
    [size = int(values[0].replace(",", ''))], [path = values[2]]. *)
Definition read_row (row : TreeRow) : option FileRecord :=
  size ← int_of_str (remove_commas (row_size row));
  Some (size, row_path row).

(** [files_to_delete] as the first loop of [delete_selected] builds it;
    [None] when [int] raises on some row. *)
Definition selection (a : App) : option (list FileRecord) := mapM read_row (selected_rows a).

(** The rows left once every selected row whose path is not among the
    failures has been deleted from the tree. *)
Definition keep_row (failed_paths : list string) (row : TreeRow) : bool :=
  negb (row_selected row) || bool_decide (row_path row ∈ failed_paths).

(** [delete_selected]; [confirm] is the answer to the confirmation dialog.
    The result is [None] when the method is left by the [ValueError] of
    [int], which happens before anything is asked or removed. *)
Definition delete_selected (confirm : bool) (fs : FileSystem) (a : App)
  : option (App * FileSystem) :=
  match selected_rows a with
  | [] => Some (show_dialog DlgNoSelection a, fs)
  | _ :: _ =>
      files_to_delete ← selection a;
      let total := total_size files_to_delete in
      let a := show_dialog (DlgConfirmDeletion (length files_to_delete) total) a in
      if negb confirm then Some (a, fs)
      else
        let d := delete_files files_to_delete (mkDeletion fs (file_list a) 0 []) in
        let a := set_file_list (del_file_list d) a in
        let a := set_tree (filter (fun row => keep_row (fmap fst (failed d)) row = true) (tree a)) a in
        let a := match failed d with
                 | [] => show_dialog (DlgDeletionComplete (deleted d) total) a
                 | _ :: _ => show_dialog (DlgDeletionErrors (deleted d) (failed d)) a
                 end in
        Some (a, del_fs d)
  end.

(** ** The scan thread, step by step *)

(** The atomic steps of the scan thread on the shared attributes and its
    local [file_count]: one evaluation of [self.scanning], or the recording
    of one file whose size was read.  Every state the loops of [scan_folder]
    pass through between two entries is reached by such steps. *)
Inductive scan_step : Z * Worker -> Z * Worker -> Prop :=
| step_read file_count w :
    scan_step (file_count, w) (file_count, snd (read_scanning w))
| step_record filepath size file_count w :
    scan_step (file_count, w) (record_file filepath size file_count w).

(** What a loop of the scan thread leaves behind: its [file_count] and the
    shared attributes. *)
Definition scan_result (r : option string * Z * Worker) : Z * Worker := (snd (fst r), snd r).

(** The callbacks that are no terminal notification. *)
Definition is_progress (cb : Callback) : bool :=
  match cb with
  | CbUpdateStatus _ | CbShowError _ => true
  | CbFinalizeScan _ | CbScanCancelled _ => false
  end.

(** The message box a callback opens, if any. *)
Definition dialog_of (cb : Callback) : option Dialog :=
  match cb with
  | CbShowError msg => Some (DlgScanError msg)
  | _ => None
  end.

(** The tree view shows the store, and the store lists every file once:
    what a scan leaves when [os.walk] yields every file once. *)
Definition listed_once (a : App) : Prop :=
  Forall2 (fun row r => row_size row = format_thousands (size r) /\ row_path row = path r)
    (tree a) (file_list a)
  /\ NoDup (fmap path (file_list a)).

(** The store is a sorted part followed by the records appended since the
    last sort, and [files_since_sort] counts the latter. *)
Definition unsorted_tail_counted (a : App) : Prop :=
  exists sorted_part tail : list FileRecord,
    file_list a = sorted_part ++ tail
    /\ Sorted size_ge sorted_part
    /\ Z.of_nat (length tail) = files_since_sort a.

(** ** The reads of the flag, in program order *)

(** The points at which the loops evaluate [self.scanning] when no stop
    arrives: at the head of the outer loop for each directory, and at the
    head of the inner loop for each file, where the file's path and the
    answer of [os.path.getsize] are noted. *)
Inductive Checkpoint :=
| AtDir
| AtFile (filepath : string) (stat : StatResult).

(** The reads of one directory; the flag says whether a file raised an
    exception that is not an [OSError], which ends the scan. *)
Fixpoint file_reads (dirpath : string) (filenames : list (string * StatResult))
  : list Checkpoint * bool :=
  match filenames with
  | [] => ([], false)
  | (filename, stat) :: filenames' =>
      let cp := AtFile (path_join dirpath filename) stat in
      match stat with
      | StatError _ => ([cp], true)
      | _ => let '(cps, raised) := file_reads dirpath filenames' in (cp :: cps, raised)
      end
  end.

Fixpoint loop_reads (walk : Walk) : list Checkpoint :=
  match walk with
  | WalkEnd => []
  | WalkRaise _ => []
  | WalkDir dirpath filenames rest =>
      let '(cps, raised) := file_reads dirpath filenames in
      AtDir :: cps ++ (if raised then [] else loop_reads rest)
  end.

(** The records the checkpoints give rise to: one per file whose size was read. *)
Definition appended_at (cp : Checkpoint) : option FileRecord :=
  match cp with
  | AtFile filepath (StatOk size) => Some (size, filepath)
  | _ => None
  end.

Definition appended (cps : list Checkpoint) : list FileRecord := omap appended_at cps.

(** The checkpoints passed before a stop that lands at read number [n]. *)
Definition passed (stop : option nat) (cps : list Checkpoint) : list Checkpoint :=
  match stop with
  | Some n => take n cps
  | None => cps
  end.

(** Whether a stop due at read number [n] lands within the next [k] reads,
    and what is left of the delay after [k] reads when it does not. *)
Definition landed (stop : option nat) (k : nat) : bool :=
  match stop with
  | Some n => (n <? k)%nat
  | None => false
  end.

Definition delay_after (stop : option nat) (k : nat) : option nat :=
  match stop with
  | Some n => Some (n - k)%nat
  | None => None
  end.

(** Whether the scan ran into an exception: the walk raised, or a file did. *)
Fixpoint walk_raises (walk : Walk) : bool :=
  match walk with
  | WalkEnd => false
  | WalkRaise _ => true
  | WalkDir dirpath filenames rest => snd (file_reads dirpath filenames) || walk_raises rest
  end.


(** ** Sample inputs *)

(** The state [start_scan] leaves. *)
Definition after_start (a : App) : App :=
  match start_scan a with
  | Returned a' _ => a'
  | Raised _ a' => a'
  end.

(** A folder was chosen; then a scan is running. *)
Definition chosen_app : App := browse_folder "/data" init.
Definition running_app : App := after_start chosen_app.

(** A tree with two directories, one file of which cannot be read. *)
Definition sample_walk (root : string) : Walk :=
  WalkDir root [("a.bin", StatOk 10); ("locked", StatOSError); ("b.bin", StatOk 500)]%string
    (WalkDir (path_join root "sub") [("c.txt", StatOk 3); ("d.iso", StatOk 500)]%string
       WalkEnd).

(** A walk that raises at once (as [os.walk] does with a [ValueError], which
    is no [OSError], for a root that holds a null byte), and one that raises
    after two files. *)
Definition raising_walk (root : string) : Walk := WalkRaise "embedded null byte".
Definition broken_walk (root : string) : Walk :=
  WalkDir root [("a.bin", StatOk 10); ("b.bin", StatOk 500)]%string
    (WalkRaise "walk failed").

(** The sample tree scanned to the end, everything selected, and a disk on
    which every file of the tree can be removed. *)
Definition scanned_app : App := select_all (run_scan sample_walk None chosen_app).
Definition sample_disk : FileSystem :=
  list_to_map [("/data/a.bin", None); ("/data/locked", None); ("/data/b.bin", None);
               ("/data/sub/c.txt", None); ("/data/sub/d.iso", None)]%string.

(** The same disk after [/data/b.bin] was removed by someone else and with
    [/data/sub/c.txt] held open by another program. *)
Definition busy_disk : FileSystem :=
  list_to_map [("/data/a.bin", None); ("/data/locked", None);
               ("/data/sub/c.txt", Some "file is in use"); ("/data/sub/d.iso", None)]%string.

(** A store whose counter has reached the threshold. *)
Definition due_app : App :=
  set_files_since_sort 100 (set_file_list [(3, "a"); (7, "b"); (7, "c")]%string init).

(** Deleting everything that was scanned on the busy disk. *)
Definition scanned_files : list FileRecord := default [] (selection scanned_app).
Definition busy_deletion : Deletion :=
  delete_files scanned_files (mkDeletion busy_disk (file_list scanned_app) 0 []).

(** ** More of the program: what the scan reports and what the deletion shows *)

(** The records of one size, in the order of the list. *)
Definition of_size (k : Z) (l : list FileRecord) : list FileRecord :=
  filter (fun r => size r = k) l.

(** The records a walk gives when it is followed to its end: a record for
    each file whose size can be read, in the order of the walk, up to the
    first exception that is not an [OSError]; the flag says whether such an
    exception ended the directory. *)
Fixpoint dir_records (dirpath : string) (filenames : list (string * StatResult))
  : list FileRecord * bool :=
  match filenames with
  | [] => ([], false)
  | (filename, StatOk size) :: filenames' =>
      let '(records, raised) := dir_records dirpath filenames' in
      ((size, path_join dirpath filename) :: records, raised)
  | (filename, StatOSError) :: filenames' => dir_records dirpath filenames'
  | (filename, StatError _) :: _ => ([], true)
  end.

Fixpoint walk_records (walk : Walk) : list FileRecord :=
  match walk with
  | WalkEnd => []
  | WalkRaise _ => []
  | WalkDir dirpath filenames rest =>
      let '(records, raised) := dir_records dirpath filenames in
      records ++ (if raised then [] else walk_records rest)
  end.

(** Every file of a walk whose size can be read, in the order of the walk,
    whether or not a scan gets as far as the file. *)
Definition dir_readable (dirpath : string) (filenames : list (string * StatResult))
  : list FileRecord :=
  omap (fun entry => match snd entry with
                     | StatOk size => Some (size, path_join dirpath (fst entry))
                     | _ => None
                     end) filenames.

Fixpoint readable_files (walk : Walk) : list FileRecord :=
  match walk with
  | WalkEnd => []
  | WalkRaise _ => []
  | WalkDir dirpath filenames rest => dir_readable dirpath filenames ++ readable_files rest
  end.

(** A directory in which reading the size of the second file raises a
    [ValueError]; the files after it can be read. *)
Definition faulty_walk (root : string) : Walk :=
  WalkDir root [("a.bin", StatOk 10); ("b.bin", StatError "ValueError");
                ("c.bin", StatOk 500)]%string
    (WalkDir (path_join root "sub") [("d.iso", StatOk 3)]%string WalkEnd).


(** The disk of the sample tree with every file in place and
    [/data/sub/c.txt] held open by another program. *)
Definition locked_disk : FileSystem :=
  list_to_map [("/data/a.bin", None); ("/data/locked", None); ("/data/b.bin", None);
               ("/data/sub/c.txt", Some "file is in use"); ("/data/sub/d.iso", None)]%string.

(** The counts for which the loop schedules [update_status]: the multiples
    of 100 up to [file_count]. *)
Definition progress_counts (file_count : Z) : list Z :=
  fmap (fun i => 100 * Z.of_nat i) (seq 1 (Z.to_nat (file_count / 100))).

Definition progress_callback (file_count : Z) : Callback :=
  CbUpdateStatus (StScanning file_count).

(** Whether [os.remove] refuses the file of a record on a given disk, and
    the entry [(path, str(e))] the deletion loop then adds to [failed]. *)
Definition refusal (fs : FileSystem) (r : FileRecord) : option (string * string) :=
  match os_remove (path r) fs with
  | inl _ => None
  | inr msg => Some (path r, msg)
  end.

(** The text of the warning after a deletion with failures:
    [fail_msg = "\n".join([f"{p}: {e}" for p, e in failed[:10]])], and
    [fail_msg += f"\n... and {len(failed) - 10} more"] when
    [len(failed) > 10].  The lines are kept as the pairs they print, the
    last line as the number it prints. *)
Definition fail_msg (failed : list (string * string))
  : list (string * string) * option Z :=
  (take 10 failed,
   if 10 <? Z.of_nat (length failed) then Some (Z.of_nat (length failed) - 10) else None).

(** What [update_info] (the closure of [get_selection_info]) writes into the
    label: nothing when no row is selected, else the number of selected rows
    and the sum of their sizes; [None] when [int] raises on a row.  The
    function schedules itself again every 500 ms; one run is modelled. *)
Inductive SelectionInfo :=
| InfoEmpty                                  (* info_var.set('') *)
| InfoSelected (n : nat) (total_size : Z).   (* "Selected: {n} file(s), Total: ..." *)

Definition update_info (a : App) : option SelectionInfo :=
  match selected_rows a with
  | [] => Some InfoEmpty
  | rows =>
      sizes ← mapM (fun row => int_of_str (remove_commas (row_size row))) rows;
      Some (InfoSelected (length rows) (fold_left Z.add sizes 0))
  end.

(** A store of three files, two of them of the same size, with its tree. *)
Definition tied_app : App :=
  populate_tree (set_file_list [(7, "/d/x"); (1000, "/d/y"); (7, "/d/z")]%string init).

(** Twelve files that are not on the disk. *)
Definition twelve_missing : list FileRecord :=
  fmap (fun i => (Z.of_nat i, String (ascii_of_nat (97 + i)) EmptyString)) (seq 0 12).

(** ** The size column reads back as it was written *)

Section RenderFacts.

Lemma remove_commas_list l :
  remove_commas (string_of_list_ascii l)
  = string_of_list_ascii (filter (fun c => c <> ","%char) l).
Proof.
  induction l as [|c l IH]; [done|].
  rewrite filter_cons. cbn [string_of_list_ascii remove_commas].
  destruct (decide (c = ","%char)) as [->|Hc].
  - by rewrite decide_False by (by intros []).
  - rewrite decide_True by done. cbn [string_of_list_ascii]. by rewrite IH.
Qed.

Lemma group_rev_filter k l :
  filter (fun c => c <> ","%char) (group_rev k l) = filter (fun c => c <> ","%char) l.
Proof.
  revert k. induction l as [|c l IH]; intros k; [done|].
  cbn [group_rev]. destruct (decide (k = 3%nat)).
  - rewrite filter_cons, decide_False by (by intros []). by rewrite !filter_cons, IH.
  - by rewrite !filter_cons, IH.
Qed.

Lemma filter_all {A} (P : A -> Prop) `{forall x, Decision (P x)} (l : list A) :
  Forall P l -> filter P l = l.
Proof.
  induction 1 as [|x l Hx _ IH]; [done|]. by rewrite filter_cons, decide_True, IH.
Qed.

Lemma digits_no_comma d :
  Forall (fun c => c <> ","%char) (list_ascii_of_string (NilEmpty.string_of_uint d)).
Proof. induction d; cbn; constructor; done. Qed.

Lemma digits_of_uint_no_comma d : Forall (fun c => c <> ","%char) (digits_of_uint d).
Proof.
  unfold digits_of_uint, NilZero.string_of_uint. destruct d; try apply digits_no_comma.
  by repeat constructor.
Qed.

Lemma remove_commas_with_separators d :
  remove_commas (string_of_list_ascii (with_separators (digits_of_uint d)))
  = NilZero.string_of_uint d.
Proof.
  rewrite remove_commas_list. unfold with_separators.
  rewrite filter_reverse, group_rev_filter, <- filter_reverse, reverse_involutive.
  rewrite filter_all by apply digits_of_uint_no_comma.
  apply string_of_list_ascii_of_string.
Qed.

Lemma remove_commas_format_thousands n :
  remove_commas (format_thousands n) = NilZero.string_of_int (Z.to_int n).
Proof.
  unfold format_thousands. destruct (Z.to_int n) as [d|d]; cbn.
  - apply remove_commas_with_separators.
  - rewrite decide_False by done. f_equal. apply remove_commas_with_separators.
Qed.

(** [int(f"{n:,}".replace(",", '')) == n] *)
Lemma int_of_str_format_thousands n :
  int_of_str (remove_commas (format_thousands n)) = Some n.
Proof.
  rewrite remove_commas_format_thousands. unfold int_of_str.
  rewrite NilZero.isi.
  - cbn. f_equal. apply DecimalZ.of_to.
  - destruct n; cbn; try done. intros [= H]. by apply DecimalPos.Unsigned.to_uint_nonnil in H.
  - destruct n; cbn; try done. intros [= H]. by apply DecimalPos.Unsigned.to_uint_nonnil in H.
Qed.

End RenderFacts.

Example format_thousands_samples :
  format_thousands 0 = "0"%string
  /\ format_thousands 999 = "999"%string
  /\ format_thousands 1000 = "1,000"%string
  /\ format_thousands 1234567 = "1,234,567"%string
  /\ format_thousands (-123456) = "-123,456"%string
  /\ int_of_str (remove_commas "1,234,567") = Some 1234567
  /\ int_of_str (remove_commas "12a") = None.
Proof. split_and!; reflexivity. Qed.
(** * Properties *)

(** ** The sort *)

Section SortFacts.

Implicit Types (x y r : FileRecord) (l : list FileRecord).

Lemma insert_desc_perm x l : insert_desc x l ≡ₚ x :: l.
Proof.
  induction l as [|y l IH]; simpl; [done|].
  destruct (size x <? size y); [|done].
  rewrite IH. apply Permutation_swap.
Qed.

Lemma sort_desc_perm l : sort_desc l ≡ₚ l.
Proof.
  induction l as [|x l IH]; simpl; [done|].
  by rewrite insert_desc_perm, IH.
Qed.

Lemma sort_desc_length l : length (sort_desc l) = length l.
Proof. by rewrite sort_desc_perm. Qed.

Lemma insert_desc_HdRel a x l :
  size_ge a x -> HdRel size_ge a l -> HdRel size_ge a (insert_desc x l).
Proof.
  intros Hax Hl. destruct l as [|y l]; simpl; [by constructor|].
  destruct (size x <? size y); constructor; [by inversion Hl|done].
Qed.

Lemma insert_desc_sorted x l : Sorted size_ge l -> Sorted size_ge (insert_desc x l).
Proof.
  induction 1 as [|y l Hl IH Hy]; simpl; [by repeat constructor|].
  destruct (size x <? size y) eqn:Hc.
  - constructor; [done|]. apply insert_desc_HdRel; [|done].
    apply Z.ltb_lt in Hc. unfold size_ge. lia.
  - apply Z.ltb_ge in Hc. constructor; [by constructor|]. by constructor.
Qed.

Lemma sort_desc_sorted l : Sorted size_ge (sort_desc l).
Proof. induction l; simpl; [constructor|by apply insert_desc_sorted]. Qed.

Lemma adjacent_desc_of_sorted l : Sorted size_ge l -> adjacent_desc l.
Proof.
  induction 1 as [|x l Hl IH Hx]; intros i a b Ha Hb; [done|].
  destruct i as [|i]; simpl in *.
  - simplify_eq. destruct l as [|y l]; simplify_eq/=.
    inversion Hx; subst. unfold size_ge in *. lia.
  - by eapply IH.
Qed.

Lemma sorted_of_adjacent_desc l : adjacent_desc l -> Sorted size_ge l.
Proof.
  induction l as [|x l IH]; intros Hadj; [constructor|].
  constructor.
  - apply IH. intros i a b Ha Hb. by apply (Hadj (S i)).
  - destruct l as [|y l]; constructor.
    specialize (Hadj 0%nat x y eq_refl eq_refl). unfold size_ge. lia.
Qed.

Lemma sort_desc_adjacent l : adjacent_desc (sort_desc l).
Proof. apply adjacent_desc_of_sorted, sort_desc_sorted. Qed.

(** The sort is stable: the records of any one size keep their order. *)
Lemma insert_desc_stable k x l :
  Sorted size_ge l ->
  filter (fun r => size r = k) (insert_desc x l) = filter (fun r => size r = k) (x :: l).
Proof.
  induction 1 as [|y l Hl IH Hy]; simpl; [done|].
  destruct (size x <? size y) eqn:Hc; [|done].
  apply Z.ltb_lt in Hc.
  rewrite (filter_cons _ y), IH, !filter_cons.
  repeat case_decide; simplify_eq; try done; lia.
Qed.

Lemma sort_desc_stable k l :
  filter (fun r => size r = k) (sort_desc l) = filter (fun r => size r = k) l.
Proof.
  induction l as [|x l IH]; simpl; [done|].
  rewrite insert_desc_stable by apply sort_desc_sorted.
  by rewrite !filter_cons, IH.
Qed.

(** A list that is already sorted is left as it is. *)
Lemma insert_desc_head x l : HdRel size_ge x l -> insert_desc x l = x :: l.
Proof.
  destruct 1 as [|y l Hxy]; simpl; [done|].
  unfold size_ge in Hxy. by rewrite (proj2 (Z.ltb_ge _ _)) by lia.
Qed.

Lemma sort_desc_sorted_id l : Sorted size_ge l -> sort_desc l = l.
Proof.
  induction 1 as [|x l Hl IH Hx]; simpl; [done|].
  rewrite IH. by apply insert_desc_head.
Qed.

Lemma total_size_perm l1 l2 : l1 ≡ₚ l2 -> total_size l1 = total_size l2.
Proof. induction 1; simpl; lia. Qed.

End SortFacts.

(** The scenario of the specification: sizes 10, 500, 3, 500. *)
Example sort_desc_scenario :
  sort_desc [(10, "a"); (500, "b"); (3, "c"); (500, "d")]
  = [(500, "b"); (500, "d"); (10, "a"); (3, "c")]
  /\ total_size [(10, "a"); (500, "b"); (3, "c"); (500, "d")] = 1013.
Proof. split; reflexivity. Qed.

(** ** The periodic and the final sort *)

Lemma sort_files_perm a : file_list (sort_files a) ≡ₚ file_list a.
Proof. apply sort_desc_perm. Qed.

Lemma resort_if_due_perm a : file_list (resort_if_due a) ≡ₚ file_list a.
Proof.
  unfold resort_if_due. destruct (files_since_sort a >=? sort_threshold a); [|done].
  apply sort_desc_perm.
Qed.

Lemma finalize_scan_file_list n a :
  file_list (finalize_scan n a) = sort_desc (file_list a).
Proof. reflexivity. Qed.

Lemma scan_cancelled_file_list n a :
  file_list (scan_cancelled n a) = sort_desc (file_list a).
Proof. reflexivity. Qed.

(** C1: whatever records the scan appended, after [finalize_scan] (the final,
    unconditional sort) every adjacent pair [(a, b)] of the file list has
    [a.size >= b.size]; the list holds the same records as before, and the
    tree view shows exactly this list, in this order. *)
Theorem finalize_scan_sorted_desc (file_count : Z) (a : App) :
  adjacent_desc (file_list (finalize_scan file_count a))
  /\ file_list (finalize_scan file_count a) ≡ₚ file_list a
  /\ tree (finalize_scan file_count a)
     = fmap row_of (file_list (finalize_scan file_count a)).
Proof.
  rewrite finalize_scan_file_list. split_and!.
  - apply sort_desc_adjacent.
  - apply sort_desc_perm.
  - reflexivity.
Qed.

(** C6: the periodic sort of the loop body acts exactly when
    [files_since_sort] has reached [sort_threshold] (100 after [__init__]):
    then the whole file list is sorted largest first (the stable sort of all
    its records) and the counter is back to 0, nothing else changes; below
    the threshold the state is left as it is. *)
Theorem resort_if_due_spec (a : App) :
  sort_threshold init = 100
  /\ (sort_threshold a <= files_since_sort a ->
        file_list (resort_if_due a) = sort_desc (file_list a)
        /\ adjacent_desc (file_list (resort_if_due a))
        /\ file_list (resort_if_due a) ≡ₚ file_list a
        /\ files_since_sort (resort_if_due a) = 0
        /\ resort_if_due a = set_files_since_sort 0 (sort_files a))
  /\ (files_since_sort a < sort_threshold a -> resort_if_due a = a).
Proof.
  split; [reflexivity|]. unfold resort_if_due. split; intros H.
  - rewrite (proj2 (Z.geb_le _ _)) by lia. split_and!; try reflexivity.
    + apply sort_desc_adjacent.
    + apply sort_desc_perm.
  - destruct (files_since_sort a >=? sort_threshold a) eqn:Hc; [|done].
    apply Z.geb_le in Hc. lia.
Qed.

Lemma resort_if_due_spec_witness :
  sort_threshold due_app <= files_since_sort due_app
  /\ file_list (resort_if_due due_app) = [(7, "b"); (7, "c"); (3, "a")]%string
  /\ files_since_sort (resort_if_due due_app) = 0
  /\ files_since_sort init < sort_threshold init
  /\ resort_if_due init = init.
Proof.
  assert (H : sort_threshold due_app <= files_since_sort due_app) by (cbn; lia).
  assert (H' : files_since_sort init < sort_threshold init) by (cbn; lia).
  split; [exact H|].
  destruct (resort_if_due_spec due_app) as (_ & Hdue & _).
  destruct (resort_if_due_spec init) as (_ & _ & Hnot).
  destruct (Hdue H) as (Hl & _ & _ & Hz & _).
  split; [rewrite Hl; reflexivity|]. split; [exact Hz|]. split; [exact H'|exact (Hnot H')].
Defined.

(** C7: a resort, periodic or final, only permutes the store: the file list
    after [sort_files], after the periodic sort of the loop body, after
    [finalize_scan] and after [scan_cancelled] is a permutation of the file
    list before, so the multiset of [(size, path)] records is the same. *)
Theorem resort_permutes (file_count : Z) (a : App) :
  file_list (sort_files a) ≡ₚ file_list a
  /\ file_list (resort_if_due a) ≡ₚ file_list a
  /\ file_list (finalize_scan file_count a) ≡ₚ file_list a
  /\ file_list (scan_cancelled file_count a) ≡ₚ file_list a.
Proof.
  split_and!.
  - apply sort_files_perm.
  - apply resort_if_due_perm.
  - apply sort_desc_perm.
  - apply sort_desc_perm.
Qed.

(** ** The scan thread follows its steps *)

Lemma step_read_eq c w running w' :
  read_scanning w = (running, w') -> scan_step (c, w) (c, w').
Proof. intros H. replace w' with (snd (read_scanning w)) by (by rewrite H). constructor. Qed.

Lemma step_record_eq filepath size c w c' w' :
  record_file filepath size c w = (c', w') -> scan_step (c, w) (c', w').
Proof. intros <-. constructor. Qed.

Lemma scan_files_steps dirpath filenames c w :
  rtc scan_step (c, w) (scan_result (scan_files dirpath filenames c w)).
Proof.
  revert c w. induction filenames as [|[filename stat] filenames IH]; intros c w; cbn.
  - apply rtc_refl.
  - destruct (read_scanning w) as [running w1] eqn:Hread.
    eapply rtc_l; [eapply step_read_eq; exact Hread|].
    destruct running; cbn; [|apply rtc_refl].
    destruct stat as [size| |msg].
    + destruct (record_file (path_join dirpath filename) size c w1) as [c2 w2] eqn:Hrec.
      eapply rtc_l; [eapply step_record_eq; exact Hrec|]. cbn. apply IH.
    + apply IH.
    + apply rtc_refl.
Qed.

Lemma scan_walk_steps walk c w :
  rtc scan_step (c, w) (scan_result (scan_walk walk c w)).
Proof.
  revert c w. induction walk as [|msg|dirpath filenames rest IH]; intros c w; cbn;
    try apply rtc_refl.
  destruct (read_scanning w) as [running w1] eqn:Hread.
  eapply rtc_l; [eapply step_read_eq; exact Hread|].
  destruct running; cbn; [|apply rtc_refl].
  pose proof (scan_files_steps dirpath filenames c w1) as Hfiles.
  destruct (scan_files dirpath filenames c w1) as [[[msg|] c2] w2]; cbn in *; [done|].
  etrans; [exact Hfiles|apply IH].
Qed.

(** A property of the pair (file_count, shared attributes) that every step
    keeps holds wherever the steps lead. *)
Lemma scan_steps_invariant (P : Z * Worker -> Prop) s s' :
  (forall t t', scan_step t t' -> P t -> P t') ->
  rtc scan_step s s' -> P s -> P s'.
Proof. intros Hstep Hrtc. induction Hrtc; eauto. Qed.

(** ** What a step leaves alone *)

Lemma read_scanning_file_list w : file_list (app (snd (read_scanning w))) = file_list (app w).
Proof. unfold read_scanning. by destruct (stop_in w) as [[|n]|]. Qed.

Lemma read_scanning_files_since_sort w :
  files_since_sort (app (snd (read_scanning w))) = files_since_sort (app w).
Proof. unfold read_scanning. by destruct (stop_in w) as [[|n]|]. Qed.

Lemma read_scanning_sort_threshold w :
  sort_threshold (app (snd (read_scanning w))) = sort_threshold (app w).
Proof. unfold read_scanning. by destruct (stop_in w) as [[|n]|]. Qed.

Lemma read_scanning_posted w : posted (snd (read_scanning w)) = posted w.
Proof. unfold read_scanning. by destruct (stop_in w) as [[|n]|]. Qed.

Lemma resort_if_due_sort_threshold a : sort_threshold (resort_if_due a) = sort_threshold a.
Proof. unfold resort_if_due. by destruct (_ >=? _). Qed.

Lemma resort_if_due_scanning a : scanning (resort_if_due a) = scanning a.
Proof. unfold resort_if_due. by destruct (_ >=? _). Qed.

Lemma record_file_app filepath size c w :
  app (snd (record_file filepath size c w))
  = resort_if_due (set_files_since_sort (files_since_sort (app w) + 1)
                     (set_file_list (file_list (app w) ++ [(size, filepath)]) (app w))).
Proof. unfold record_file. simpl. by destruct (_ =? _). Qed.

Lemma record_file_count filepath size c w :
  fst (record_file filepath size c w) = c + 1.
Proof. reflexivity. Qed.

Lemma record_file_stop_in filepath size c w :
  stop_in (snd (record_file filepath size c w)) = stop_in w.
Proof. unfold record_file. simpl. by destruct (_ =? _). Qed.

Lemma record_file_perm filepath size c w :
  file_list (app (snd (record_file filepath size c w)))
  ≡ₚ file_list (app w) ++ [(size, filepath)].
Proof. rewrite record_file_app, resort_if_due_perm. done. Qed.

Lemma record_file_scanning filepath size c w :
  scanning (app (snd (record_file filepath size c w))) = scanning (app w).
Proof. rewrite record_file_app, resort_if_due_scanning. done. Qed.

Lemma record_file_sort_threshold filepath size c w :
  sort_threshold (app (snd (record_file filepath size c w))) = sort_threshold (app w).
Proof. rewrite record_file_app, resort_if_due_sort_threshold. done. Qed.

(** ** The invariants of the scan loop *)

Lemma start_scan_spawned a a0 :
  start_scan a = Returned a0 true ->
  scanning a = false
  /\ a0 = set_widgets widgets_scanning
            (set_scanning true (set_files_since_sort 0 (set_tree [] (set_file_list [] a)))).
Proof. unfold start_scan. destruct (scanning a); intros H; by simplify_eq. Qed.

Lemma scan_step_count t t' :
  scan_step t t' ->
  fst t = Z.of_nat (length (file_list (app (snd t)))) ->
  fst t' = Z.of_nat (length (file_list (app (snd t')))).
Proof.
  destruct 1 as [c w|filepath size c w]; cbn [fst snd]; intros ->.
  - by rewrite read_scanning_file_list.
  - rewrite record_file_count, record_file_perm, length_app. cbn. lia.
Qed.

Lemma record_file_files_since_sort filepath size c w :
  files_since_sort (app (snd (record_file filepath size c w)))
  = if sort_threshold (app w) <=? files_since_sort (app w) + 1
    then 0 else files_since_sort (app w) + 1.
Proof.
  rewrite record_file_app. unfold resort_if_due. cbn.
  rewrite Z.geb_leb. by destruct (_ <=? _).
Qed.

Lemma record_file_tail_counted filepath size c w :
  unsorted_tail_counted (app w) ->
  unsorted_tail_counted (app (snd (record_file filepath size c w))).
Proof.
  intros (pre & tail & Hl & Hpre & Hlen).
  rewrite record_file_app. unfold resort_if_due. cbn.
  destruct (_ >=? _) eqn:Hdue.
  - exists (sort_desc (file_list (app w) ++ [(size, filepath)])), [].
    cbn. rewrite app_nil_r. split_and!; [done|apply sort_desc_sorted|done].
  - exists pre, (tail ++ [(size, filepath)]). cbn.
    rewrite Hl, <- (assoc_L (++)), length_app. split_and!; [done|done|cbn; lia].
Qed.

Lemma scan_step_tail_bounded (T : Z) t t' :
  0 < T ->
  scan_step t t' ->
  (sort_threshold (app (snd t)) = T
   /\ 0 <= files_since_sort (app (snd t)) < T
   /\ unsorted_tail_counted (app (snd t))) ->
  (sort_threshold (app (snd t')) = T
   /\ 0 <= files_since_sort (app (snd t')) < T
   /\ unsorted_tail_counted (app (snd t'))).
Proof.
  intros HT [c w|filepath size c w]; cbn [fst snd]; intros (Hthr & Hfss & Htail).
  - rewrite read_scanning_sort_threshold, read_scanning_files_since_sort.
    split; [done|]. split; [lia|].
    destruct Htail as (pre & tail & Hl & Hpre & Hlen). exists pre, tail.
    by rewrite read_scanning_file_list, read_scanning_files_since_sort.
  - rewrite record_file_sort_threshold, record_file_files_since_sort, Hthr.
    split; [done|]. split; [|by apply record_file_tail_counted].
    destruct (T <=? _) eqn:Hc; [lia|]. apply Z.leb_gt in Hc. lia.
Qed.

(** C9: throughout a scan the counter of files appended since the last sort
    stays below the sort threshold (100 after [__init__]): in every state the
    scan thread reaches by its steps from the state [start_scan] leaves, and
    so in the state either loop ends in, [0 <= files_since_sort < sort_threshold]
    (hence never above it); recording a file sets the counter to 0 when the
    increment reaches the threshold and to the incremented value otherwise;
    and the file list is a sorted part followed by exactly
    [files_since_sort] unsorted records. *)
Theorem files_since_sort_bounded (stop : option nat) (a a0 : App) :
  0 < sort_threshold a ->
  start_scan a = Returned a0 true ->
  let w0 := mkWorker a0 stop [] in
  (forall c w, rtc scan_step (0, w0) (c, w) ->
     sort_threshold (app w) = sort_threshold a
     /\ 0 <= files_since_sort (app w) < sort_threshold a
     /\ unsorted_tail_counted (app w))
  /\ (forall walk, rtc scan_step (0, w0) (scan_result (scan_walk walk 0 w0)))
  /\ (forall filepath size c w,
        files_since_sort (app (snd (record_file filepath size c w)))
        = if sort_threshold (app w) <=? files_since_sort (app w) + 1
          then 0 else files_since_sort (app w) + 1).
Proof.
  intros HT Hstart w0. apply start_scan_spawned in Hstart as [_ ->].
  split_and!.
  - intros c w Hsteps.
    apply (scan_steps_invariant
             (fun t => sort_threshold (app (snd t)) = sort_threshold a
                       /\ 0 <= files_since_sort (app (snd t)) < sort_threshold a
                       /\ unsorted_tail_counted (app (snd t))) _ _
             (fun t t' => scan_step_tail_bounded (sort_threshold a) t t' HT) Hsteps).
    cbn. split; [done|]. split; [lia|].
    exists [], []. cbn. split_and!; [done|constructor|done].
  - intros walk. apply scan_walk_steps.
  - intros. apply record_file_files_since_sort.
Qed.

(** ** Reading the flag *)

Lemma read_scanning_live w :
  scanning (app w) = true ->
  match stop_in w with
  | Some O => read_scanning w = (false, mkWorker (stop_scan (app w)) None (posted w))
  | Some (S n) => read_scanning w = (true, mkWorker (app w) (Some n) (posted w))
  | None => read_scanning w = (true, w)
  end.
Proof. intros H. unfold read_scanning. destruct (stop_in w) as [[|n]|]; by rewrite ?H. Qed.

Lemma read_scanning_stopped w :
  scanning (app w) = false ->
  fst (read_scanning w) = false /\ scanning (app (snd (read_scanning w))) = false.
Proof. intros H. unfold read_scanning. by destruct (stop_in w) as [[|n]|]. Qed.

(** Once the flag is down the loops do nothing more to the store. *)
Lemma scan_files_stopped dirpath filenames c w :
  scanning (app w) = false ->
  exists w', scan_files dirpath filenames c w = (None, c, w')
             /\ scanning (app w') = false
             /\ file_list (app w') = file_list (app w).
Proof.
  intros H. destruct filenames as [|[filename stat] filenames]; cbn.
  - by exists w.
  - destruct (read_scanning_stopped w H) as [Hr Hs].
    pose proof (read_scanning_file_list w) as Hl.
    destruct (read_scanning w) as [running w1]. cbn in *. subst running. cbn.
    by exists w1.
Qed.

Lemma scan_walk_stopped walk c w :
  scanning (app w) = false ->
  exists exc w', scan_walk walk c w = (exc, c, w')
                 /\ scanning (app w') = false
                 /\ file_list (app w') = file_list (app w).
Proof.
  intros H. destruct walk as [|msg|dirpath filenames rest]; cbn.
  - by exists None, w.
  - by exists (Some msg), w.
  - destruct (read_scanning_stopped w H) as [Hr Hs].
    pose proof (read_scanning_file_list w) as Hl.
    destruct (read_scanning w) as [running w1]. cbn in *. subst running. cbn.
    by exists None, w1.
Qed.

(** ** The records a scan appends *)

Lemma appended_app cps1 cps2 : appended (cps1 ++ cps2) = appended cps1 ++ appended cps2.
Proof. apply omap_app. Qed.

Lemma passed_nil stop : passed stop [] = [].
Proof. destruct stop as [n|]; [apply take_nil|done]. Qed.

Lemma passed_app stop cps1 cps2 :
  passed stop (cps1 ++ cps2)
  = passed stop cps1 ++ passed (delay_after stop (length cps1)) cps2.
Proof. destruct stop as [n|]; cbn; [apply take_app|done]. Qed.

Lemma passed_landed stop cps :
  landed stop (length cps) = false -> passed stop cps = cps.
Proof.
  destruct stop as [n|]; cbn; [|done].
  intros H%Nat.ltb_ge. by apply take_ge.
Qed.

Lemma passed_delay_landed stop k cps :
  landed stop k = true -> passed (delay_after stop k) cps = [].
Proof.
  destruct stop as [n|]; cbn; [|done].
  intros H%Nat.ltb_lt. by replace (n - k)%nat with 0%nat by lia.
Qed.

Lemma scan_files_live dirpath filenames c w :
  scanning (app w) = true ->
  exists exc c' w',
    scan_files dirpath filenames c w = (exc, c', w')
    /\ file_list (app w')
       ≡ₚ file_list (app w)
          ++ appended (passed (stop_in w) (fst (file_reads dirpath filenames)))
    /\ if landed (stop_in w) (length (fst (file_reads dirpath filenames)))
       then scanning (app w') = false /\ exc = None
       else scanning (app w') = true
            /\ stop_in w' = delay_after (stop_in w) (length (fst (file_reads dirpath filenames)))
            /\ (is_Some exc <-> snd (file_reads dirpath filenames) = true).
Proof.
  revert c w. induction filenames as [|[filename stat] filenames IH]; intros c w Hlive.
  { exists None, c, w. cbn. rewrite passed_nil. cbn. rewrite app_nil_r.
    split; [done|]. split; [done|].
    assert (is_Some (@None string) <-> false = true) by (split; [by intros [? ?]|done]).
    destruct (stop_in w) as [n|]; cbn; split_and!; try done.
    f_equal. lia. }
  pose proof (read_scanning_live w Hlive) as Hread.
  destruct (stop_in w) as [[|n]|] eqn:Hstop.
  - (* the stop lands at this read *)
    eexists None, c, _. split; [cbn; rewrite Hread; reflexivity|].
    assert (exists cp cps, fst (file_reads dirpath ((filename, stat) :: filenames)) = cp :: cps)
      as (cp & cps & ->).
    { cbn. destruct stat; cbn; try destruct (file_reads dirpath filenames); cbn; eauto. }
    cbn. rewrite app_nil_r. done.
  - (* the stop is still [n] reads away *)
    cbn. rewrite Hread. cbn.
    destruct stat as [size| |msg].
    + destruct (record_file (path_join dirpath filename) size c
                  (mkWorker (app w) (Some n) (posted w))) as [c2 w2] eqn:Hrec.
      pose proof (record_file_scanning (path_join dirpath filename) size c
                    (mkWorker (app w) (Some n) (posted w))) as Hsc.
      pose proof (record_file_perm (path_join dirpath filename) size c
                    (mkWorker (app w) (Some n) (posted w))) as Hperm.
      pose proof (record_file_stop_in (path_join dirpath filename) size c
                    (mkWorker (app w) (Some n) (posted w))) as Hst.
      rewrite Hrec in Hsc, Hperm, Hst. cbn in Hsc, Hperm, Hst.
      destruct (IH c2 w2) as (exc & c' & w' & Heq & Hl & Hrest); [congruence|].
      exists exc, c', w'. rewrite Hst in Hl, Hrest.
      destruct (file_reads dirpath filenames) as [cps raised]. cbn in *.
      split; [done|]. split; [|done].
      rewrite Hl, Hperm, <- (assoc_L (++)). done.
    + destruct (IH c (mkWorker (app w) (Some n) (posted w)))
        as (exc & c' & w' & Heq & Hl & Hrest); [done|].
      exists exc, c', w'.
      destruct (file_reads dirpath filenames) as [cps raised]. cbn in *.
      done.
    + eexists (Some msg), c, _. split; [reflexivity|]. cbn.
      rewrite take_nil, app_nil_r. split; [done|].
      split_and!; try done. f_equal. lia.
  - (* no stop arrives *)
    cbn. rewrite Hread. cbn.
    destruct stat as [size| |msg].
    + destruct (record_file (path_join dirpath filename) size c w) as [c2 w2] eqn:Hrec.
      pose proof (record_file_scanning (path_join dirpath filename) size c w) as Hsc.
      pose proof (record_file_perm (path_join dirpath filename) size c w) as Hperm.
      pose proof (record_file_stop_in (path_join dirpath filename) size c w) as Hst.
      rewrite Hrec in Hsc, Hperm, Hst. cbn in Hsc, Hperm, Hst.
      destruct (IH c2 w2) as (exc & c' & w' & Heq & Hl & Hrest); [congruence|].
      exists exc, c', w'. rewrite Hst, Hstop in Hl, Hrest.
      destruct (file_reads dirpath filenames) as [cps raised]. cbn in *.
      split; [done|]. split; [|done].
      rewrite Hl, Hperm, <- (assoc_L (++)). done.
    + destruct (IH c w) as (exc & c' & w' & Heq & Hl & Hrest); [done|].
      exists exc, c', w'. rewrite Hstop in Hl, Hrest.
      destruct (file_reads dirpath filenames) as [cps raised]. cbn in *.
      done.
    + eexists (Some msg), c, _. split; [reflexivity|]. cbn.
      rewrite app_nil_r. split; [done|].
      split_and!; try done.
Qed.

(** The arithmetic of a pending stop. *)
Lemma landed_1_cases stop :
  (landed stop 1 = true /\ stop = Some 0%nat)
  \/ (landed stop 1 = false /\ stop <> Some 0%nat).
Proof. destruct stop as [[|n]|]; cbn; auto. Qed.

Lemma passed_cons stop cp cps :
  landed stop 1 = false -> passed stop (cp :: cps) = cp :: passed (delay_after stop 1) cps.
Proof.
  destruct stop as [[|n]|]; cbn; try done.
  intros _. by rewrite ?Nat.sub_0_r.
Qed.

Lemma landed_S stop k :
  landed stop 1 = false -> landed stop (S k) = landed (delay_after stop 1) k.
Proof.
  destruct stop as [[|n]|]; try done.
  intros _. cbn [landed delay_after]. replace (S n - 1)%nat with n by lia. reflexivity.
Qed.

Lemma delay_after_add stop k1 k2 :
  delay_after (delay_after stop k1) k2 = delay_after stop (k1 + k2).
Proof. destruct stop as [n|]; cbn; [|done]. f_equal. lia. Qed.

Lemma delay_after_S stop k :
  delay_after stop (S k) = delay_after (delay_after stop 1) k.
Proof. destruct stop as [n|]; cbn [delay_after]; [|done]. f_equal. lia. Qed.

Lemma landed_add stop k1 k2 :
  landed stop k1 = false -> landed stop (k1 + k2) = landed (delay_after stop k1) k2.
Proof.
  destruct stop as [n|]; cbn [landed delay_after]; [|done].
  intros H%Nat.ltb_ge.
  destruct (Nat.ltb_spec n (k1 + k2)), (Nat.ltb_spec (n - k1) k2); (done || (exfalso; lia)).
Qed.

Lemma landed_mono stop k1 k2 :
  landed stop k1 = true -> (k1 <= k2)%nat -> landed stop k2 = true.
Proof.
  destruct stop as [n|]; cbn [landed delay_after]; [|done].
  intros H%Nat.ltb_lt Hle. apply Nat.ltb_lt. lia.
Qed.

Lemma read_scanning_live_landed w :
  scanning (app w) = true ->
  exists w1,
    read_scanning w = (negb (landed (stop_in w) 1), w1)
    /\ file_list (app w1) = file_list (app w)
    /\ if landed (stop_in w) 1 then scanning (app w1) = false
       else scanning (app w1) = true /\ stop_in w1 = delay_after (stop_in w) 1.
Proof.
  intros Hlive. pose proof (read_scanning_live w Hlive) as Hread.
  destruct (stop_in w) as [[|n]|] eqn:Hstop; rewrite Hread; eexists; cbn;
    split_and!; try done.
  by rewrite ?Nat.sub_0_r.
Qed.

Lemma scan_walk_live walk c w :
  scanning (app w) = true ->
  exists exc c' w',
    scan_walk walk c w = (exc, c', w')
    /\ file_list (app w')
       ≡ₚ file_list (app w) ++ appended (passed (stop_in w) (loop_reads walk))
    /\ if landed (stop_in w) (length (loop_reads walk))
       then scanning (app w') = false
       else scanning (app w') = true
            /\ stop_in w' = delay_after (stop_in w) (length (loop_reads walk))
            /\ (is_Some exc <-> walk_raises walk = true).
Proof.
  revert c w. induction walk as [|msg|dirpath filenames rest IH]; intros c w Hlive.
  - exists None, c, w. cbn. rewrite passed_nil. cbn. rewrite app_nil_r.
    split; [done|]. split; [done|].
    assert (is_Some (@None string) <-> false = true) by (split; [by intros [? ?]|done]).
    destruct (stop_in w) as [n|]; cbn; split_and!; try done. f_equal. lia.
  - exists (Some msg), c, w. cbn. rewrite passed_nil. cbn. rewrite app_nil_r.
    split; [done|]. split; [done|].
    destruct (stop_in w) as [n|]; cbn; split_and!; try done. f_equal. lia.
  - destruct (read_scanning_live_landed w Hlive) as (w1 & Hread & Hl1 & Hw1).
    cbn [scan_walk loop_reads walk_raises]. rewrite Hread.
    pose proof (scan_files_live dirpath filenames c w1) as Hfiles.
    destruct (file_reads dirpath filenames) as [cps raised]. cbn [fst snd] in *.
    destruct (landed_1_cases (stop_in w)) as [[Hland Hstop]|[Hland _]];
      rewrite Hland in Hw1 |- *; cbn [negb].
    { (* the stop lands at the head of the outer loop *)
      exists None, c, w1. split; [done|]. rewrite Hstop. cbn.
      rewrite app_nil_r, Hl1. done. }
    destruct Hw1 as [Hlive1 Hstop1].
    destruct (Hfiles Hlive1) as (exc & c2 & w2 & Heq & Hl2 & Hw2). clear Hfiles.
    rewrite Heq, Hl1, Hstop1 in *.
    set (R := if raised then [] else loop_reads rest).
    cbn [length]. rewrite length_app.
    rewrite (landed_S _ _ Hland), (passed_cons _ _ _ Hland), passed_app.
    rewrite (delay_after_S _ (length cps + length R)), <- delay_after_add.
    change (appended (AtDir :: ?l)) with (appended l). rewrite appended_app.
    destruct (landed (delay_after (stop_in w) 1) (length cps)) eqn:Hland2.
    { (* the stop lands in the inner loop *)
      destruct Hw2 as [Hstopped ->].
      destruct (scan_walk_stopped rest c2 w2 Hstopped) as (exc' & w3 & Heq3 & Hs3 & Hl3).
      exists exc', c2, w3. split; [done|].
      rewrite (landed_mono _ _ _ Hland2) by lia.
      rewrite (passed_delay_landed _ _ _ Hland2).
      rewrite Hl3, Hl2. cbn. rewrite !app_nil_r. done. }
    destruct Hw2 as (Hlive2 & Hstop2 & Hexc).
    rewrite (landed_add _ _ _ Hland2).
    destruct exc as [msg|].
    + (* a file raised *)
      assert (raised = true) as Hr by (apply Hexc; by eexists).
      subst R. rewrite Hr.
      exists (Some msg), c2, w2. split; [done|].
      rewrite passed_nil. cbn [appended omap length orb]. rewrite !app_nil_r.
      split; [done|].
      assert (landed (delay_after (delay_after (stop_in w) 1) (length cps)) 0 = false) as ->
        by (by destruct (delay_after _ _)).
      split_and!; try done.
      rewrite Hstop2. destruct (delay_after _ (length cps)) as [n|]; cbn; [|done].
      f_equal. lia.
    + assert (raised = false) as Hr.
      { destruct raised; [|done]. destruct Hexc as [_ H]. by destruct (H eq_refl). }
      subst R. rewrite Hr.
      destruct (IH c2 w2 Hlive2) as (exc' & c' & w' & Heq' & Hl' & Hw').
      exists exc', c', w'. split; [done|].
      rewrite Hstop2 in Hl', Hw'.
      split.
      * rewrite Hl', Hl2, <- !(assoc_L (++)). done.
      * destruct (landed _ (length (loop_reads rest))); [done|].
        destruct Hw' as (? & ? & ?). split_and!; done.
Qed.

(** ** The callbacks the scan thread schedules *)

Lemma record_file_posted filepath size c w :
  exists cbs, posted (snd (record_file filepath size c w)) = posted w ++ cbs
              /\ Forall (fun cb => is_progress cb = true) cbs.
Proof.
  unfold record_file. cbn. destruct (_ =? _); cbn.
  - eexists [_]. split; [done|]. by repeat constructor.
  - exists []. by rewrite app_nil_r.
Qed.

Lemma scan_step_posted t t' :
  scan_step t t' ->
  Forall (fun cb => is_progress cb = true) (posted (snd t)) ->
  Forall (fun cb => is_progress cb = true) (posted (snd t')).
Proof.
  destruct 1 as [c w|filepath size c w]; cbn [snd]; intros H.
  - by rewrite read_scanning_posted.
  - destruct (record_file_posted filepath size c w) as (cbs & -> & Hcbs).
    by apply Forall_app.
Qed.

Lemma run_progress_file_list cbs a :
  Forall (fun cb => is_progress cb = true) cbs ->
  file_list (fold_left run_callback cbs a) = file_list a.
Proof.
  intros H. revert a. induction H as [|cb cbs Hcb _ IH]; intros a; cbn; [done|].
  rewrite IH. by destruct cb.
Qed.

Lemma run_progress_dialogs cbs a :
  Forall (fun cb => is_progress cb = true) cbs ->
  dialogs (fold_left run_callback cbs a) = dialogs a ++ omap dialog_of cbs.
Proof.
  intros H. revert a. induction H as [|cb cbs Hcb _ IH]; intros a; cbn.
  - by rewrite app_nil_r.
  - rewrite IH. destruct cb; cbn; try done. by rewrite <- (assoc_L (++)).
Qed.

Lemma mainloop_post cb w :
  mainloop (post cb w) = run_callback (mainloop w) cb.
Proof. unfold mainloop, post. cbn. by rewrite fold_left_app. Qed.

Lemma terminal_post cb w :
  terminal (post cb w)
  = match cb with
    | CbFinalizeScan n => Some (Completed n)
    | CbScanCancelled n => Some (Cancelled n)
    | _ => None
    end.
Proof. unfold terminal, post. cbn. by rewrite last_snoc. Qed.

Lemma scan_folder_eq os_walk w exc c w1 running w2 :
  scan_walk (os_walk (path_var (app w))) 0 w = (exc, c, w1) ->
  read_scanning (match exc with Some msg => post (CbShowError msg) w1 | None => w1 end)
  = (running, w2) ->
  scan_folder os_walk w
  = post (if running then CbFinalizeScan c else CbScanCancelled c) w2.
Proof. unfold scan_folder. intros -> ->. by destruct running. Qed.

Lemma start_scan_path_var a a0 spawned : start_scan a = Returned a0 spawned -> path_var a0 = path_var a.
Proof. unfold start_scan. destruct (scanning a); intros H; by simplify_eq. Qed.

Lemma run_scan_spawned os_walk stop a a0 :
  start_scan a = Returned a0 true ->
  run_scan os_walk stop a = mainloop (scan_folder os_walk (mkWorker a0 stop [])).
Proof. unfold run_scan. by intros ->. Qed.

(** The state a scan ends in, for every walk and every interleaving of the
    stop: the terminal callback runs on a state whose file list is a
    permutation of the records appended at the checkpoints passed, the
    callback is [scan_cancelled] exactly when the stop lands at one of the
    reads (those of the loops and the final one), and an exception met
    before any stop has opened the error box. *)
Lemma run_scan_end os_walk stop a a0 :
  start_scan a = Returned a0 true ->
  exists pre : App,
    let cps := loop_reads (os_walk (path_var a)) in
    let c := Z.of_nat (length (appended (passed stop cps))) in
    file_list pre ≡ₚ appended (passed stop cps)
    /\ (if landed stop (S (length cps))
        then terminal (scan_folder os_walk (mkWorker a0 stop [])) = Some (Cancelled c)
             /\ run_scan os_walk stop a = scan_cancelled c pre
        else terminal (scan_folder os_walk (mkWorker a0 stop [])) = Some (Completed c)
             /\ run_scan os_walk stop a = finalize_scan c pre)
    /\ (landed stop (length cps) = false ->
        walk_raises (os_walk (path_var a)) = true ->
        exists msg, DlgScanError msg ∈ dialogs pre).
Proof.
  intros Hstart. rewrite (run_scan_spawned _ _ _ _ Hstart).
  pose proof (start_scan_path_var _ _ _ Hstart) as Hpath.
  apply start_scan_spawned in Hstart as [_ Ha0].
  set (w0 := mkWorker a0 stop []).
  assert (scanning (app w0) = true) as Hlive by (by subst a0).
  assert (file_list (app w0) = []) as Hnil by (by subst a0).
  destruct (scan_walk_live (os_walk (path_var a)) 0 w0 Hlive)
    as (exc & c & w1 & Hwalk & Hperm & Hend).
  pose proof (scan_walk_steps (os_walk (path_var a)) 0 w0) as Hsteps.
  rewrite Hwalk in Hsteps. cbn [scan_result fst snd] in Hsteps.
  assert (c = Z.of_nat (length (file_list (app w1)))) as Hcount.
  { apply (scan_steps_invariant
             (fun t => fst t = Z.of_nat (length (file_list (app (snd t))))) _ _
             scan_step_count Hsteps). cbn [fst snd]. by rewrite Hnil. }
  assert (Forall (fun cb => is_progress cb = true) (posted w1)) as Hposted.
  { apply (scan_steps_invariant
             (fun t => Forall (fun cb => is_progress cb = true) (posted (snd t))) _ _
             scan_step_posted Hsteps). constructor. }
  rewrite Hnil in Hperm. cbn [stop_in w0 app] in Hperm, Hend. cbn [app_nil_l] in Hperm.
  set (w1' := match exc with Some msg => post (CbShowError msg) w1 | None => w1 end).
  assert (app w1' = app w1 /\ stop_in w1' = stop_in w1
          /\ Forall (fun cb => is_progress cb = true) (posted w1')
          /\ forall msg, exc = Some msg -> CbShowError msg ∈ posted w1')
    as (Happ & Hstop' & Hposted' & Herr).
  { subst w1'. destruct exc as [msg|]; cbn; split_and!; try done.
    - apply Forall_app. split; [done|]. by repeat constructor.
    - intros ? [= <-]. set_solver. }
  destruct (read_scanning w1') as [running w2] eqn:Hread.
  assert (file_list (app w2) = file_list (app w1) /\ posted w2 = posted w1') as [Hl2 Hp2].
  { pose proof (read_scanning_file_list w1') as H1.
    pose proof (read_scanning_posted w1') as H2.
    rewrite Hread in H1, H2. cbn in H1, H2. by rewrite H1, H2, Happ. }
  replace (path_var a) with (path_var (app w0)) in Hwalk by (by subst w0).
  rewrite (scan_folder_eq _ _ _ _ _ _ _ Hwalk Hread), mainloop_post, terminal_post.
  exists (mainloop w2). cbn zeta.
  assert (file_list (mainloop w2) ≡ₚ appended (passed stop (loop_reads (os_walk (path_var a)))))
    as Hpre.
  { unfold mainloop. rewrite run_progress_file_list by (by rewrite Hp2). by rewrite Hl2. }
  assert (c = Z.of_nat (length (appended (passed stop (loop_reads (os_walk (path_var a)))))))
    as -> by (by rewrite Hcount, Hperm).
  split; [done|]. split.
  - (* which terminal callback *)
    assert (running = negb (landed stop (S (length (loop_reads (os_walk (path_var a)))))))
      as ->.
    { destruct (landed stop (length _)) eqn:Hland.
      - rewrite (landed_mono _ _ _ Hland) by lia.
        assert (scanning (app w1') = false) as Hs by (by rewrite Happ).
        destruct (read_scanning_stopped w1' Hs) as [Hr _].
        by rewrite Hread in Hr.
      - destruct Hend as (Hlive1 & Hstop1 & _).
        assert (scanning (app w1') = true) as Hs by (by rewrite Happ).
        destruct (read_scanning_live_landed w1' Hs) as (w2' & Hread' & _).
        rewrite Hread in Hread'. injection Hread' as -> _.
        rewrite Hstop', Hstop1.
        rewrite <- (Nat.add_1_r (length (loop_reads (os_walk (path_var a))))).
        by rewrite (landed_add _ _ _ Hland). }
    by destruct (landed stop (S _)).
  - (* the error box *)
    intros Hland Hraises. rewrite Hland in Hend. destruct Hend as (_ & _ & Hexc).
    destruct (proj2 Hexc Hraises) as [msg ->]. exists msg.
    unfold mainloop. rewrite run_progress_dialogs by (by rewrite Hp2).
    apply elem_of_app. right. rewrite Hp2.
    apply list_elem_of_omap. exists (CbShowError msg). split; [by apply Herr|done].
Qed.

(** ** Deleting files *)

Lemma remove_first_sublist r l : remove_first r l `sublist_of` l.
Proof.
  induction l as [|x l IH]; cbn; [done|].
  case_decide; [by apply sublist_cons|by apply sublist_skip].
Qed.

Lemma remove_exact_sublist r l : remove_exact r l `sublist_of` l.
Proof. unfold remove_exact. case_bool_decide; [apply remove_first_sublist|done]. Qed.

Lemma remove_first_absent r l : NoDup l -> r ∉ remove_first r l.
Proof.
  induction 1 as [|x l Hx Hl IH]; cbn; [set_solver|].
  destruct (decide (x = r)) as [->|Hne]; [done|].
  apply not_elem_of_cons. split; [congruence|done].
Qed.

Lemma remove_exact_absent r l : NoDup l -> r ∉ remove_exact r l.
Proof.
  intros Hl. unfold remove_exact. case_bool_decide; [by apply remove_first_absent|done].
Qed.

Lemma remove_first_notin r l : r ∉ l -> remove_first r l = l.
Proof.
  induction l as [|x l IH]; cbn; [done|].
  intros H. destruct (decide (x = r)) as [->|Hne]; [set_solver|]. rewrite IH; [done|set_solver].
Qed.

(** [remove_exact] takes out the first entry equal to the record and is a
    no-op when there is none. *)
Lemma remove_exact_absent_id r l : r ∉ l -> remove_exact r l = l.
Proof. intros H. unfold remove_exact. by rewrite bool_decide_eq_false_2. Qed.

Lemma remove_exact_first r l1 l2 : r ∉ l1 -> remove_exact r (l1 ++ r :: l2) = l1 ++ l2.
Proof.
  intros H. unfold remove_exact.
  rewrite bool_decide_eq_true_2 by (apply elem_of_app; right; by left).
  induction l1 as [|x l1 IH]; cbn.
  - by rewrite decide_True.
  - apply not_elem_of_cons in H as [Hne H]. rewrite decide_False by done.
    by rewrite IH.
Qed.

(** What the loop body does with one record. *)
Lemma delete_files_cons size path rest d :
  delete_files ((size, path) :: rest) d
  = delete_files rest
      match os_remove path (del_fs d) with
      | inl fs' => mkDeletion fs' (remove_exact (size, path) (del_file_list d))
                     (deleted d + 1) (failed d)
      | inr msg => mkDeletion (del_fs d) (del_file_list d) (deleted d)
                     (failed d ++ [(path, msg)])
      end.
Proof. cbn. by destruct (os_remove path (del_fs d)). Qed.

Lemma delete_files_app l1 l2 d :
  delete_files (l1 ++ l2) d = delete_files l2 (delete_files l1 d).
Proof.
  revert d. induction l1 as [|[size path] l1 IH]; intros d; [done|].
  rewrite <- app_comm_cons, !delete_files_cons. apply IH.
Qed.

Lemma delete_files_count files d :
  deleted (delete_files files d) + Z.of_nat (length (failed (delete_files files d)))
  = deleted d + Z.of_nat (length (failed d)) + Z.of_nat (length files).
Proof.
  revert d. induction files as [|[size path] files IH]; intros d.
  - cbn. lia.
  - rewrite delete_files_cons, IH.
    destruct (os_remove path (del_fs d)); cbn [deleted failed length];
      rewrite ?length_app; cbn [length]; lia.
Qed.

Lemma delete_files_failed_prefix files d :
  failed d `prefix_of` failed (delete_files files d).
Proof.
  revert d. induction files as [|[size path] files IH]; intros d; [done|].
  rewrite delete_files_cons. etrans; [|apply IH].
  destruct (os_remove path (del_fs d)); cbn; [done|]. by apply prefix_app_r.
Qed.

Lemma delete_files_store_sublist files d :
  del_file_list (delete_files files d) `sublist_of` del_file_list d.
Proof.
  revert d. induction files as [|[size path] files IH]; intros d; [done|].
  rewrite delete_files_cons. etrans; [apply IH|].
  destruct (os_remove path (del_fs d)); cbn; [apply remove_exact_sublist|done].
Qed.

(** C3: the deletion loop attempts every record of its input, in order, and
    a failure stops nothing.  For the loop started with no deletion and no
    failure: [deleted + len(failed) = len(files_to_delete)] at the end; and
    for the record at every position [i], the loop reaches it (in the state
    left by the records before it), if its removal fails with message [msg]
    the pair [(path, msg)] is appended to [failed] and nothing else changes,
    if it succeeds [deleted] grows by one and the record leaves the store,
    the pair recorded for a failure is still in [failed] at the end, and the
    records after it are processed from the state it leaves. *)
Theorem deletion_attempts_every_record (files_to_delete : list FileRecord)
    (fs : FileSystem) (store : list FileRecord) :
  let d0 := mkDeletion fs store 0 [] in
  let d' := delete_files files_to_delete d0 in
  deleted d' + Z.of_nat (length (failed d')) = Z.of_nat (length files_to_delete)
  /\ forall (i : nat) (size : Z) (path : string),
       files_to_delete !! i = Some (size, path) ->
       let di := delete_files (take i files_to_delete) d0 in
       let di' := delete_files (take (S i) files_to_delete) d0 in
       d' = delete_files (drop (S i) files_to_delete) di'
       /\ match os_remove path (del_fs di) with
          | inr msg =>
              di' = mkDeletion (del_fs di) (del_file_list di) (deleted di)
                      (failed di ++ [(path, msg)])
              /\ (path, msg) ∈ failed d'
          | inl fs' =>
              di' = mkDeletion fs' (remove_exact (size, path) (del_file_list di))
                      (deleted di + 1) (failed di)
          end.
Proof.
  intros d0 d'. split.
  - unfold d'. rewrite delete_files_count. cbn. lia.
  - intros i size path Hi di di'.
    assert (di' = delete_files [(size, path)] di) as Hstep.
    { unfold di, di'. rewrite (take_S_r _ _ _ Hi). apply delete_files_app. }
    assert (d' = delete_files (drop (S i) files_to_delete) di') as Hrest.
    { unfold d', di'. rewrite <- delete_files_app. by rewrite take_drop. }
    split; [done|].
    rewrite delete_files_cons in Hstep. cbn [delete_files] in Hstep.
    destruct (os_remove path (del_fs di)) as [fs'|msg]; [done|].
    split; [done|].
    rewrite Hrest. eapply elem_of_prefix; [|apply delete_files_failed_prefix].
    rewrite Hstep. cbn. set_solver.
Qed.

(** A path that is not on disk stays off disk. *)
Lemma os_remove_absent p p' fs fs' :
  fs !! p = None -> os_remove p' fs = inl fs' -> fs' !! p = None.
Proof.
  intros Hp. unfold os_remove. destruct (fs !! p') as [[msg|]|]; intros H; simplify_eq.
  destruct (decide (p' = p)) as [->|Hne].
  - apply lookup_delete_eq.
  - by rewrite lookup_delete_ne.
Qed.

Lemma delete_files_fs_absent files d p :
  del_fs d !! p = None -> del_fs (delete_files files d) !! p = None.
Proof.
  revert d. induction files as [|[size' p'] files IH]; intros d Hp; [done|].
  rewrite delete_files_cons. apply IH.
  destruct (os_remove p' (del_fs d)) as [fs'|msg] eqn:Hrm; cbn [del_fs]; [|done].
  by eapply os_remove_absent.
Qed.

(** When every file of the input exists, can be removed, and is named once,
    every removal succeeds. *)
Lemma delete_files_all_exist files d :
  NoDup (fmap path files) ->
  (forall r, r ∈ files -> del_fs d !! path r = Some None) ->
  failed (delete_files files d) = failed d
  /\ deleted (delete_files files d) = deleted d + Z.of_nat (length files)
  /\ (forall r, r ∈ files -> del_fs (delete_files files d) !! path r = None)
  /\ (NoDup (del_file_list d) ->
      forall r, r ∈ files -> r ∉ del_file_list (delete_files files d)).
Proof.
  revert d. induction files as [|[size p] files IH]; intros d Hnd Hex.
  { cbn [delete_files length]. split_and!; try done; [lia|by intros r ?%elem_of_nil|].
    by intros _ r ?%elem_of_nil. }
  rewrite fmap_cons in Hnd. apply NoDup_cons in Hnd as [Hp Hnd].
  change (p ∉ fmap path files) in Hp.
  rewrite delete_files_cons.
  assert (del_fs d !! p = Some None) as Hhere by (apply (Hex (size, p)); by left).
  assert (os_remove p (del_fs d) = inl (delete p (del_fs d))) as ->
    by (unfold os_remove; by rewrite Hhere).
  set (d1 := mkDeletion _ _ _ _).
  destruct (IH d1 Hnd) as (Hf & Hd & Hfs & Hstore).
  { intros r Hr. cbn [d1 del_fs]. rewrite lookup_delete_ne; [apply Hex; by right|].
    intros ->. apply Hp. apply list_elem_of_fmap. by exists r. }
  split_and!.
  - by rewrite Hf.
  - rewrite Hd. cbn [d1 deleted length]. lia.
  - intros r [->|Hr]%elem_of_cons; [|by apply Hfs].
    apply delete_files_fs_absent. cbn [d1 del_fs path snd]. apply lookup_delete_eq.
  - intros Hstore0 r [->|Hr]%elem_of_cons.
    + intros Hin. eapply remove_exact_absent; [exact Hstore0|].
      eapply elem_of_sublist; [exact Hin|apply (delete_files_store_sublist files d1)].
    + apply Hstore; [|done]. cbn [d1 del_file_list].
      eapply sublist_NoDup; [exact Hstore0|apply remove_exact_sublist].
Qed.

Lemma NoDup_fmap_eq {A B} (f : A -> B) (l : list A) x y :
  NoDup (f <$> l) -> x ∈ l -> y ∈ l -> f x = f y -> x = y.
Proof.
  induction l as [|z l IH]; intros Hnd Hx Hy Hf; [by apply elem_of_nil in Hx|].
  rewrite fmap_cons in Hnd. apply NoDup_cons in Hnd as [Hz Hnd].
  apply elem_of_cons in Hx as [->|Hx]; apply elem_of_cons in Hy as [->|Hy]; try done.
  - destruct Hz. rewrite Hf. by apply list_elem_of_fmap_2.
  - destruct Hz. rewrite <- Hf. by apply list_elem_of_fmap_2.
  - by apply IH.
Qed.

(** ** Reading the selection back from the tree *)

Lemma read_row_of r selected :
  read_row (mkRow (format_thousands (size r)) (path r) selected) = Some r.
Proof. unfold read_row. cbn. rewrite int_of_str_format_thousands. cbn. by destruct r. Qed.

Lemma read_row_shown row r :
  row_size row = format_thousands (size r) -> row_path row = path r -> read_row row = Some r.
Proof. destruct row as [s p b]. cbn. intros -> ->. apply read_row_of. Qed.

(** When the tree shows the store, the rows read back as records of the
    store, in the order of the store. *)
Lemma selection_shown (rows : list TreeRow) (store : list FileRecord) :
  Forall2 (fun row r => row_size row = format_thousands (size r) /\ row_path row = path r)
    rows store ->
  exists sel,
    mapM read_row (filter (fun row => row_selected row = true) rows) = Some sel
    /\ sel `sublist_of` store
    /\ fmap path sel = fmap row_path (filter (fun row => row_selected row = true) rows).
Proof.
  induction 1 as [|row r rows store [Hsize Hpath] _ (sel & Hsel & Hsub & Hpaths)].
  - by exists [].
  - rewrite filter_cons. destruct (decide (row_selected row = true)) as [Hs|Hs].
    + exists (r :: sel). cbn. rewrite (read_row_shown row r Hsize Hpath). cbn.
      rewrite Hsel. cbn. split_and!; [done|by apply sublist_skip|by rewrite Hpath, Hpaths].
    + exists sel. split_and!; [done|by apply sublist_cons|done].
Qed.

Lemma delete_selected_confirmed fs a sel :
  selection a = Some sel ->
  selected_rows a ≠ [] ->
  delete_selected true fs a
  = let total := total_size sel in
    let a1 := show_dialog (DlgConfirmDeletion (length sel) total) a in
    let d := delete_files sel (mkDeletion fs (file_list a1) 0 []) in
    let a2 := set_tree (filter (fun row => keep_row (fmap fst (failed d)) row = true) (tree a1))
                (set_file_list (del_file_list d) a1) in
    Some (match failed d with
          | [] => show_dialog (DlgDeletionComplete (deleted d) total) a2
          | _ :: _ => show_dialog (DlgDeletionErrors (deleted d) (failed d)) a2
          end, del_fs d).
Proof.
  intros Hsel Hrows. unfold delete_selected. rewrite Hsel.
  by destruct (selected_rows a).
Qed.

(** C8, as the code has it: when the tree shows a store that lists every file
    once, some rows are selected and every selected file is on disk and can
    be removed (that it is on disk is not enough), then
    [delete_selected] (confirmed) reads the selected records back from the
    tree and ends with no failure and [deleted = len(selection)], reports
    exactly that in its message box, and afterwards no selected record is in
    the file list (the file list is what the removals of the matching
    entries leave: [remove_exact] takes out the first entry equal to the
    record and does nothing when there is none), no selected file is on
    disk, and no row of the tree names a selected file. *)
Theorem delete_selected_all_exist (fs : FileSystem) (a : App) :
  listed_once a ->
  selected_rows a ≠ [] ->
  (forall row, row ∈ selected_rows a -> fs !! row_path row = Some None) ->
  exists (sel : list FileRecord) (a' : App) (fs' : FileSystem),
    selection a = Some sel
    /\ length sel = length (selected_rows a)
    /\ delete_selected true fs a = Some (a', fs')
    /\ failed (delete_files sel (mkDeletion fs (file_list a) 0 [])) = []
    /\ deleted (delete_files sel (mkDeletion fs (file_list a) 0 [])) = Z.of_nat (length sel)
    /\ last (dialogs a')
       = Some (DlgDeletionComplete (Z.of_nat (length sel)) (total_size sel))
    /\ file_list a' = del_file_list (delete_files sel (mkDeletion fs (file_list a) 0 []))
    /\ (forall r l, r ∉ l -> remove_exact r l = l)
    /\ (forall r l1 l2, r ∉ l1 -> remove_exact r (l1 ++ r :: l2) = l1 ++ l2)
    /\ forall r, r ∈ sel ->
         (r ∉ file_list a')
         /\ fs' !! path r = None
         /\ forall row, row ∈ tree a' -> row_path row <> path r.
Proof.
  intros [Htree Hnd] Hrows Hex.
  destruct (selection_shown (tree a) (file_list a) Htree) as (sel & Hsel & Hsub & Hpaths).
  fold (selected_rows a) in Hsel, Hpaths. fold (selection a) in Hsel.
  assert (fmap row_path (tree a) = fmap path (file_list a)) as Hcols.
  { clear -Htree. induction Htree as [|row r rows store [_ Hp] _ IH]; [done|].
    by rewrite !fmap_cons, Hp, IH. }
  assert (NoDup (fmap path sel)) as Hnd_sel.
  { eapply sublist_NoDup; [exact Hnd|]. by apply fmap_sublist. }
  assert (forall r, r ∈ sel -> fs !! path r = Some None) as Hex_sel.
  { intros r Hr. apply (list_elem_of_fmap_2 path) in Hr. rewrite Hpaths in Hr.
    apply list_elem_of_fmap in Hr as (row & -> & Hrow). by apply Hex. }
  set (d := delete_files sel (mkDeletion fs (file_list a) 0 [])).
  destruct (delete_files_all_exist sel (mkDeletion fs (file_list a) 0 []) Hnd_sel Hex_sel)
    as (Hf & Hd & Hfs & Hstore).
  fold d in Hf, Hd, Hfs, Hstore. cbn [failed deleted del_file_list] in Hf, Hd, Hstore.
  eexists sel, _, _. split; [done|].
  split. { by rewrite <- (length_fmap path), Hpaths, length_fmap. }
  split.
  { rewrite (delete_selected_confirmed fs a sel Hsel Hrows). cbn zeta.
    change (file_list (show_dialog _ a)) with (file_list a). fold d. rewrite Hf.
    reflexivity. }
  split; [done|]. split; [change (deleted d = Z.of_nat (length sel)); lia|]. split.
  { cbn. rewrite last_snoc. do 2 f_equal. lia. }
  split; [reflexivity|].
  split; [apply remove_exact_absent_id|]. split; [apply remove_exact_first|].
  intros r Hr. split_and!.
  - apply Hstore; [|done]. by eapply NoDup_fmap_1.
  - by apply Hfs.
  - cbn. intros row [Hkeep Hin]%list_elem_of_filter Hpath.
    unfold keep_row in Hkeep. cbn [fmap list_fmap] in Hkeep.
    rewrite bool_decide_eq_false_2 in Hkeep by apply not_elem_of_nil.
    rewrite orb_false_r in Hkeep. apply negb_true_iff in Hkeep.
    apply (list_elem_of_fmap_2 path) in Hr. rewrite Hpaths in Hr.
    apply list_elem_of_fmap in Hr as (row' & Hrow' & [Hsel' Hin']%list_elem_of_filter).
    assert (row = row') as ->; [|congruence].
    eapply (NoDup_fmap_eq row_path (tree a)); [|done|done|congruence].
    by rewrite Hcols.
Qed.

(** ** Deleting keeps the tree and the store in step *)

Lemma remove_first_filter r (l : list FileRecord) :
  NoDup l -> remove_first r l = filter (fun x => x <> r) l.
Proof.
  induction 1 as [|x l Hx Hl IH]; [done|].
  cbn [remove_first]. rewrite filter_cons.
  destruct (decide (x = r)) as [->|Hne].
  - rewrite decide_False by (by intros []).
    symmetry. apply filter_all. apply Forall_forall. by intros y Hy ->.
  - by rewrite decide_True, IH.
Qed.

Lemma remove_exact_filter r (l : list FileRecord) :
  NoDup l -> remove_exact r l = filter (fun x => x <> r) l.
Proof.
  intros Hl. unfold remove_exact. case_bool_decide as Hr.
  - by apply remove_first_filter.
  - symmetry. apply filter_all. apply Forall_forall. by intros y Hy ->.
Qed.

(** What the loop leaves of the store: the records that were not in its
    input, and those of its input whose removal failed. *)
Lemma delete_files_outcome files d :
  NoDup (fmap path files) ->
  NoDup (del_file_list d) ->
  exists F : list (string * string),
    failed (delete_files files d) = failed d ++ F
    /\ (forall p, p ∈ fmap fst F -> p ∈ fmap path files)
    /\ del_file_list (delete_files files d)
       = filter (fun r => r ∉ files \/ path r ∈ fmap fst F) (del_file_list d).
Proof.
  revert d. induction files as [|[s p] files IH]; intros d Hnd Hstore.
  { exists []. cbn [delete_files]. rewrite app_nil_r. split_and!; [done|done|].
    symmetry. apply filter_all. apply Forall_forall. intros r _. left. apply not_elem_of_nil. }
  rewrite fmap_cons in Hnd. apply NoDup_cons in Hnd as [Hp Hnd].
  change (p ∉ fmap path files) in Hp.
  rewrite delete_files_cons.
  destruct (os_remove p (del_fs d)) as [fs'|msg].
  - (* removed *)
    destruct (IH (mkDeletion fs' (remove_exact (s, p) (del_file_list d)) (deleted d + 1)
                    (failed d)) Hnd) as (F & HF & Hsub & Hl).
    { cbn. eapply sublist_NoDup; [exact Hstore|apply remove_exact_sublist]. }
    cbn [failed del_file_list] in HF, Hl.
    exists F. split; [done|]. split.
    { intros q Hq. rewrite fmap_cons. right. by apply Hsub. }
    rewrite Hl, (remove_exact_filter _ _ Hstore), list_filter_filter.
    apply list_filter_iff. intros r. split.
    + intros [[Hr|Hr] Hne]; [left|by right].
      apply not_elem_of_cons. split; [done|exact Hr].
    + intros [Hr|Hr].
      * apply not_elem_of_cons in Hr as [Hne Hr]. split; [by left|done].
      * split; [by right|]. intros ->. apply Hp, Hsub, Hr.
  - (* refused *)
    destruct (IH (mkDeletion (del_fs d) (del_file_list d) (deleted d)
                    (failed d ++ [(p, msg)])) Hnd Hstore) as (F & HF & Hsub & Hl).
    cbn [failed del_file_list] in HF, Hl.
    exists ((p, msg) :: F). split; [by rewrite HF, <- (assoc_L (++))|]. split.
    { intros q [->|Hq]%elem_of_cons; rewrite fmap_cons; [by left|right; by apply Hsub]. }
    rewrite Hl. apply list_filter_iff. intros r. rewrite fmap_cons. cbn [fst]. split.
    + intros [Hr|Hr]; [|right; by right].
      destruct (decide (r = (s, p))) as [->|Hne]; [right; by left|].
      left. apply not_elem_of_cons. by split.
    + intros [Hr|[Hr|Hr]%elem_of_cons]; [|left|by right].
      * apply not_elem_of_cons in Hr as [_ Hr]. by left.
      * intros Hin. apply Hp. rewrite <- Hr. by apply list_elem_of_fmap_2.
Qed.

Lemma Forall2_with_elem_of {A B} (R : A -> B -> Prop) (l : list A) (k : list B) :
  Forall2 R l k -> Forall2 (fun x y => R x y /\ x ∈ l /\ y ∈ k) l k.
Proof.
  induction 1 as [|x y l k Hxy _ IH].
  - constructor.
  - constructor; [split_and!; [done|by left|by left]|].
    eapply Forall2_impl; [exact IH|]. intros x' y' (? & ? & ?).
    split_and!; [done|by right|by right].
Qed.

Lemma delete_selected_fields fs a sel :
  selection a = Some sel ->
  selected_rows a ≠ [] ->
  exists a',
    delete_selected true fs a
    = Some (a', del_fs (delete_files sel (mkDeletion fs (file_list a) 0 [])))
    /\ file_list a' = del_file_list (delete_files sel (mkDeletion fs (file_list a) 0 []))
    /\ tree a'
       = filter (fun row =>
                   keep_row (fmap fst (failed (delete_files sel
                                                 (mkDeletion fs (file_list a) 0 [])))) row
                   = true) (tree a).
Proof.
  intros Hsel Hrows. rewrite (delete_selected_confirmed fs a sel Hsel Hrows). cbn zeta.
  change (file_list (show_dialog _ a)) with (file_list a).
  destruct (failed (delete_files sel _)); eexists; split_and!; reflexivity.
Qed.

(** [listed_once] is kept by [delete_selected], whatever the outcome of the
    removals: a row leaves the tree exactly when its record leaves the store. *)
Lemma delete_selected_listed_once confirm fs a a' fs' :
  listed_once a ->
  delete_selected confirm fs a = Some (a', fs') ->
  listed_once a'.
Proof.
  intros [Htree Hnd] Hdel.
  destruct (selection_shown (tree a) (file_list a) Htree) as (sel & Hsel & Hsub & Hpaths).
  fold (selected_rows a) in Hsel, Hpaths. fold (selection a) in Hsel.
  destruct (decide (selected_rows a = [])) as [Hrows|Hrows].
  { unfold delete_selected in Hdel. rewrite Hrows in Hdel. injection Hdel as <- _. by split. }
  destruct confirm; last first.
  { unfold delete_selected in Hdel. rewrite Hsel in Hdel.
    destruct (selected_rows a); [done|]. cbn in Hdel. injection Hdel as <- _. by split. }
  destruct (delete_selected_fields fs a sel Hsel Hrows) as (a'' & Heq & Hfl & Htr).
  rewrite Heq in Hdel. injection Hdel as -> _. clear Heq.
  set (d := delete_files sel _) in *.
  assert (fmap row_path (tree a) = fmap path (file_list a)) as Hcols.
  { clear -Htree. induction Htree as [|row r rows store [_ Hp] _ IH]; [done|].
    by rewrite !fmap_cons, Hp, IH. }
  assert (NoDup (fmap path sel)) as Hnd_sel.
  { eapply sublist_NoDup; [exact Hnd|]. by apply fmap_sublist. }
  assert (NoDup (file_list a)) as Hnd_store by (by eapply NoDup_fmap_1).
  destruct (delete_files_outcome sel (mkDeletion fs (file_list a) 0 []) Hnd_sel Hnd_store)
    as (F & HF & HFsub & Hl).
  fold d in HF, Hl. cbn [failed del_file_list app] in HF, Hl.
  unfold listed_once.
  split.
  - rewrite Hfl, Htr, Hl, HF.
    eapply Forall2_impl.
    + eapply Forall2_filter; [|apply Forall2_with_elem_of, Htree].
      intros row r ((Hsize & Hpath) & Hrow & Hr). cbn beta.
      unfold keep_row. rewrite orb_true_iff, negb_true_iff, bool_decide_eq_true, Hpath.
      assert (row_selected row = true <-> r ∈ sel) as Hiff.
      { split.
        - intros Hs.
          assert (path r ∈ fmap path sel) as Hin.
          { rewrite Hpaths, <- Hpath. apply list_elem_of_fmap_2.
            apply list_elem_of_filter. by split. }
          apply list_elem_of_fmap in Hin as (r' & Hp' & Hr').
          assert (r = r') as ->; [|done].
          eapply (NoDup_fmap_eq path (file_list a)); [done|done| |done].
          by eapply elem_of_sublist.
        - intros Hin. apply (list_elem_of_fmap_2 path) in Hin. rewrite Hpaths in Hin.
          apply list_elem_of_fmap in Hin as (row' & Hp' & [Hs' Hrow']%list_elem_of_filter).
          assert (row = row') as ->; [|done].
          eapply (NoDup_fmap_eq row_path (tree a)); [by rewrite Hcols|done|done|congruence]. }
      cbn [app]. rewrite <- Hiff.
      destruct (row_selected row); split; (intros [H|H]; [|by right]);
        [done|by destruct H|by left|by left].
    + by intros row r (? & _ & _).
  - rewrite Hfl. eapply sublist_NoDup; [exact Hnd|].
    apply fmap_sublist. apply (delete_files_store_sublist sel (mkDeletion fs (file_list a) 0 [])).
Qed.

(** ** The sample scan *)

Example sample_scan_completes :
  file_list (run_scan sample_walk None chosen_app)
  = [(500, "/data/b.bin"); (500, "/data/sub/d.iso"); (10, "/data/a.bin");
     (3, "/data/sub/c.txt")]%string
  /\ status_var (run_scan sample_walk None chosen_app) = StComplete 4 1013
  /\ scanning (run_scan sample_walk None chosen_app) = false.
Proof. split_and!; reflexivity. Qed.

Example sample_scan_cancelled :
  loop_reads (sample_walk "/data")
  = [AtDir; AtFile "/data/a.bin" (StatOk 10); AtFile "/data/locked" StatOSError;
     AtFile "/data/b.bin" (StatOk 500); AtDir; AtFile "/data/sub/c.txt" (StatOk 3);
     AtFile "/data/sub/d.iso" (StatOk 500)]%string
  /\ file_list (run_scan sample_walk (Some 5%nat) chosen_app)
     = [(500, "/data/b.bin"); (10, "/data/a.bin")]%string
  /\ status_var (run_scan sample_walk (Some 5%nat) chosen_app) = StCancelled 2.
Proof. split_and!; reflexivity. Qed.

(** ** Cancelling a scan *)

(** C2: when the stop lands at read number [n] of the flag (any of the reads
    of the two loops, or the final one), the scan ends on the cancelled
    path, and the file list it leaves holds exactly the records appended at
    the checkpoints passed before that read, each once (a permutation of
    them), sorted largest first; the tree shows this list and the status
    line reports their number. *)
Theorem cancelled_scan_snapshot (os_walk : string -> Walk) (n : nat) (a a0 : App) :
  start_scan a = Returned a0 true ->
  (n <= length (loop_reads (os_walk (path_var a))))%nat ->
  let kept := appended (take n (loop_reads (os_walk (path_var a)))) in
  let final := run_scan os_walk (Some n) a in
  terminal (scan_folder os_walk (mkWorker a0 (Some n) []))
  = Some (Cancelled (Z.of_nat (length kept)))
  /\ file_list final ≡ₚ kept
  /\ adjacent_desc (file_list final)
  /\ tree final = fmap row_of (file_list final)
  /\ status_var final = StCancelled (Z.of_nat (length kept))
  /\ scanning final = false.
Proof.
  intros Hstart Hn kept final.
  destruct (run_scan_end os_walk (Some n) a a0 Hstart) as (pre & Hpre & Hterm & _).
  cbn zeta in Hterm. cbn [passed] in Hpre, Hterm. fold kept in Hpre, Hterm.
  assert (landed (Some n) (S (length (loop_reads (os_walk (path_var a))))) = true) as Hland
    by (apply Nat.ltb_lt; lia).
  rewrite Hland in Hterm. destruct Hterm as [Hterm Hfinal].
  fold final in Hfinal. rewrite Hfinal, scan_cancelled_file_list.
  split_and!; try done.
  - by rewrite sort_desc_perm.
  - apply sort_desc_adjacent.
Qed.

Lemma cancelled_scan_snapshot_witness :
  start_scan chosen_app = Returned running_app true
  /\ (5 <= length (loop_reads (sample_walk (path_var chosen_app))))%nat
  /\ file_list (run_scan sample_walk (Some 5%nat) chosen_app)
     ≡ₚ [(10, "/data/a.bin"); (500, "/data/b.bin")]%string
  /\ adjacent_desc (file_list (run_scan sample_walk (Some 5%nat) chosen_app)).
Proof.
  assert (H1 : start_scan chosen_app = Returned running_app true) by reflexivity.
  assert (H2 : (5 <= length (loop_reads (sample_walk (path_var chosen_app))))%nat)
    by (cbn; lia).
  destruct (cancelled_scan_snapshot sample_walk 5 chosen_app running_app H1 H2)
    as (_ & Hperm & Hsorted & _).
  split; [exact H1|]. split; [exact H2|]. split; [exact Hperm|exact Hsorted].
Defined.

(** A stop that comes after the final read does not cancel the scan. *)
Lemma late_stop_completes os_walk stop a a0 :
  start_scan a = Returned a0 true ->
  landed stop (S (length (loop_reads (os_walk (path_var a))))) = false ->
  terminal (scan_folder os_walk (mkWorker a0 stop []))
  = Some (Completed (Z.of_nat (length (appended (loop_reads (os_walk (path_var a)))))))
  /\ file_list (run_scan os_walk stop a)
     = sort_desc (file_list (run_scan os_walk stop a))
  /\ file_list (run_scan os_walk stop a) ≡ₚ appended (loop_reads (os_walk (path_var a))).
Proof.
  intros Hstart Hland.
  destruct (run_scan_end os_walk stop a a0 Hstart) as (pre & Hpre & Hterm & _).
  cbn zeta in Hterm. rewrite Hland in Hterm. destruct Hterm as [Hterm Hfinal].
  assert (passed stop (loop_reads (os_walk (path_var a))) = loop_reads (os_walk (path_var a)))
    as Hall.
  { apply passed_landed. destruct (landed stop (length _)) eqn:H; [|done].
    by rewrite (landed_mono _ _ (S (length (loop_reads (os_walk (path_var a))))) H) in Hland by lia. }
  rewrite Hall in *. rewrite Hfinal, finalize_scan_file_list.
  split_and!; try done.
  - symmetry. apply sort_desc_sorted_id, sort_desc_sorted.
  - by rewrite sort_desc_perm.
Qed.

(** ** The count of files *)

(** C10: during a scan the local [file_count] equals the length of the file
    list.  [start_scan] empties the list and the count starts at 0; in every
    state the scan thread reaches by its steps (recording a file adds one to
    the count and one record to the list) the two agree, in particular in
    the state the loops end in; and the count handed to the terminal
    callback is the length of the file list once that callback has run. *)
Theorem file_count_is_store_length (os_walk : string -> Walk) (stop : option nat)
    (a a0 : App) :
  start_scan a = Returned a0 true ->
  let w0 := mkWorker a0 stop [] in
  file_list a0 = []
  /\ (forall c w, rtc scan_step (0, w0) (c, w) ->
        c = Z.of_nat (length (file_list (app w))))
  /\ (forall walk, rtc scan_step (0, w0) (scan_result (scan_walk walk 0 w0)))
  /\ (forall filepath size c w,
        fst (record_file filepath size c w) = c + 1
        /\ length (file_list (app (snd (record_file filepath size c w))))
           = S (length (file_list (app w))))
  /\ exists c,
       (terminal (scan_folder os_walk w0) = Some (Completed c)
        \/ terminal (scan_folder os_walk w0) = Some (Cancelled c))
       /\ c = Z.of_nat (length (file_list (run_scan os_walk stop a))).
Proof.
  intros Hstart w0.
  destruct (run_scan_end os_walk stop a a0 Hstart) as (pre & Hpre & Hterm & _).
  apply start_scan_spawned in Hstart as [_ Ha0].
  assert (file_list a0 = []) as Hnil by (by subst a0).
  split_and!; [done| | | |].
  - intros c w Hsteps.
    apply (scan_steps_invariant
             (fun t => fst t = Z.of_nat (length (file_list (app (snd t))))) _ _
             scan_step_count Hsteps).
    cbn. by rewrite Hnil.
  - intros walk. apply scan_walk_steps.
  - intros filepath size c w. split; [apply record_file_count|].
    rewrite record_file_perm, length_app. cbn. lia.
  - cbn zeta in Hterm. unfold w0.
    exists (Z.of_nat (length (appended (passed stop (loop_reads (os_walk (path_var a))))))).
    destruct (landed stop (S _)); destruct Hterm as [-> ->].
    + split; [by right|]. by rewrite scan_cancelled_file_list, sort_desc_perm, Hpre.
    + split; [by left|]. by rewrite finalize_scan_file_list, sort_desc_perm, Hpre.
Qed.

Lemma file_count_is_store_length_witness :
  start_scan chosen_app = Returned running_app true
  /\ exists c,
       (terminal (scan_folder sample_walk (mkWorker running_app None [])) = Some (Completed c)
        \/ terminal (scan_folder sample_walk (mkWorker running_app None [])) = Some (Cancelled c))
       /\ c = Z.of_nat (length (file_list (run_scan sample_walk None chosen_app))).
Proof.
  assert (H1 : start_scan chosen_app = Returned running_app true) by reflexivity.
  split; [exact H1|].
  exact (proj2 (proj2 (proj2 (proj2
           (file_count_is_store_length sample_walk None chosen_app running_app H1))))).
Defined.

Lemma files_since_sort_bounded_witness :
  0 < sort_threshold chosen_app
  /\ start_scan chosen_app = Returned running_app true
  /\ forall c w, rtc scan_step (0, mkWorker running_app None []) (c, w) ->
       sort_threshold (app w) = 100
       /\ 0 <= files_since_sort (app w) < 100
       /\ unsorted_tail_counted (app w).
Proof.
  assert (H0 : 0 < sort_threshold chosen_app) by reflexivity.
  assert (H1 : start_scan chosen_app = Returned running_app true) by reflexivity.
  split; [exact H0|]. split; [exact H1|].
  exact (proj1 (files_since_sort_bounded None chosen_app running_app H0 H1)).
Defined.

(** ** Starting a scan twice *)






(** ** A scan that runs into an exception *)

(** C5, as the code has it: when the scan meets an exception ([os.walk]
    raises, or reading a file's size raises something else than an
    [OSError]) before it sees a stop, the message is shown in the "Scan
    Error" box, and the scan ends like any other: on the completed path when
    the final read of the flag sees no stop, on the cancelled path when it
    does.  Either way the flag is cleared, the records collected before the
    exception are all there, sorted largest first, and the tree shows them. *)
Theorem scan_error_shown_and_sorted (os_walk : string -> Walk) (stop : option nat)
    (a a0 : App) :
  start_scan a = Returned a0 true ->
  walk_raises (os_walk (path_var a)) = true ->
  landed stop (length (loop_reads (os_walk (path_var a)))) = false ->
  let kept := appended (loop_reads (os_walk (path_var a))) in
  let count := Z.of_nat (length kept) in
  let final := run_scan os_walk stop a in
  (exists msg, DlgScanError msg ∈ dialogs final)
  /\ terminal (scan_folder os_walk (mkWorker a0 stop []))
     = Some (if landed stop (S (length (loop_reads (os_walk (path_var a)))))
             then Cancelled count else Completed count)
  /\ status_var final
     = (if landed stop (S (length (loop_reads (os_walk (path_var a)))))
        then StCancelled count else StComplete count (total_size kept))
  /\ scanning final = false
  /\ file_list final ≡ₚ kept
  /\ adjacent_desc (file_list final)
  /\ tree final = fmap row_of (file_list final).
Proof.
  intros Hstart Hraises Hland kept count final.
  destruct (run_scan_end os_walk stop a a0 Hstart) as (pre & Hpre & Hterm & Herr).
  cbn zeta in Hterm. rewrite (passed_landed _ _ Hland) in Hpre, Hterm.
  fold kept in Hpre, Hterm. fold count in Hterm.
  destruct (Herr Hland Hraises) as [msg Hmsg].
  assert (file_list final = sort_desc (file_list pre)
          /\ dialogs final = dialogs pre
          /\ scanning final = false
          /\ tree final = fmap row_of (file_list final)) as (Hl & Hd & Hs & Ht).
  { unfold final. destruct (landed stop (S _)); destruct Hterm as [_ ->];
      split_and!; reflexivity. }
  split_and!; try done.
  - exists msg. by rewrite Hd.
  - by destruct (landed stop (S _)); destruct Hterm as [-> _].
  - unfold final. destruct (landed stop (S _)); destruct Hterm as [_ ->]; [done|].
    cbn. f_equal. apply total_size_perm. by rewrite sort_desc_perm.
  - by rewrite Hl, sort_desc_perm.
  - rewrite Hl. apply sort_desc_adjacent.
Qed.

Lemma scan_error_shown_and_sorted_witness :
  start_scan chosen_app = Returned running_app true
  /\ walk_raises (broken_walk (path_var chosen_app)) = true
  /\ landed None (length (loop_reads (broken_walk (path_var chosen_app)))) = false
  /\ (exists msg, DlgScanError msg ∈ dialogs (run_scan broken_walk None chosen_app))
  /\ adjacent_desc (file_list (run_scan broken_walk None chosen_app)).
Proof.
  assert (H1 : start_scan chosen_app = Returned running_app true) by reflexivity.
  assert (H2 : walk_raises (broken_walk (path_var chosen_app)) = true) by reflexivity.
  assert (H3 : landed None (length (loop_reads (broken_walk (path_var chosen_app)))) = false)
    by reflexivity.
  destruct (scan_error_shown_and_sorted broken_walk None chosen_app running_app H1 H2 H3)
    as (Hbox & _ & _ & _ & _ & Hsorted & _).
  split; [exact H1|]. split; [exact H2|]. split; [exact H3|]. split; [exact Hbox|exact Hsorted].
Defined.

(** The scan whose walk raises at once ends on the completed path, not on
    the cancelled one; so does the scan whose walk breaks after two files. *)
Lemma scan_error_ends_completed :
  walk_raises (raising_walk (path_var chosen_app)) = true
  /\ terminal (scan_folder raising_walk (mkWorker running_app None [])) = Some (Completed 0)
  /\ status_var (run_scan raising_walk None chosen_app) = StComplete 0 0
  /\ dialogs (run_scan raising_walk None chosen_app) = [DlgScanError "embedded null byte"]
  /\ (forall c, terminal (scan_folder raising_walk (mkWorker running_app None []))
                <> Some (Cancelled c))
  /\ walk_raises (broken_walk (path_var chosen_app)) = true
  /\ terminal (scan_folder broken_walk (mkWorker running_app None [])) = Some (Completed 2)
  /\ status_var (run_scan broken_walk None chosen_app) = StComplete 2 510.
Proof. split_and!; try reflexivity. intros c H. discriminate H. Qed.

(** ** Deleting the sample tree *)

Lemma deletion_attempts_every_record_witness :
  scanned_files !! 0%nat = Some (500, "/data/b.bin"%string)
  /\ deleted busy_deletion + Z.of_nat (length (failed busy_deletion))
     = Z.of_nat (length scanned_files)
  /\ ("/data/b.bin"%string, "No such file or directory"%string) ∈ failed busy_deletion.
Proof.
  assert (H : scanned_files !! 0%nat = Some (500, "/data/b.bin"%string)) by reflexivity.
  destruct (deletion_attempts_every_record scanned_files busy_disk (file_list scanned_app))
    as [Hcount Heach].
  destruct (Heach 0%nat 500 "/data/b.bin"%string H) as [_ Hhere].
  split; [exact H|]. split; [exact Hcount|]. exact (proj2 Hhere).
Defined.

Example delete_with_failures :
  selection scanned_app
  = Some [(500, "/data/b.bin"); (500, "/data/sub/d.iso"); (10, "/data/a.bin");
          (3, "/data/sub/c.txt")]%string
  /\ deleted busy_deletion = 2
  /\ failed busy_deletion
     = [("/data/b.bin", "No such file or directory"); ("/data/sub/c.txt", "file is in use")]%string
  /\ del_file_list busy_deletion = [(500, "/data/b.bin"); (3, "/data/sub/c.txt")]%string
  /\ (fun r => (file_list (fst r), fmap row_path (tree (fst r))))
       <$> delete_selected true busy_disk scanned_app
     = Some ([(500, "/data/b.bin"); (3, "/data/sub/c.txt")],
             ["/data/b.bin"; "/data/sub/c.txt"])%string.
Proof. split_and!; reflexivity. Qed.

(** A scan of a walk that yields every file once leaves a store that lists
    every file once, shown as it is by the tree. *)
Lemma appended_sublist cps1 cps2 :
  cps1 `sublist_of` cps2 -> appended cps1 `sublist_of` appended cps2.
Proof.
  induction 1 as [|cp l1 l2 _ IH|cp l1 l2 _ IH]; [done| |]; unfold appended in *; cbn.
  - destruct (appended_at cp); [by apply sublist_skip|done].
  - destruct (appended_at cp); [by apply sublist_cons|done].
Qed.

Lemma passed_sublist stop cps : passed stop cps `sublist_of` cps.
Proof. destruct stop as [n|]; [apply sublist_take|done]. Qed.

Lemma row_of_shown (store : list FileRecord) :
  Forall2 (fun row r => row_size row = format_thousands (size r) /\ row_path row = path r)
    (fmap row_of store) store.
Proof. induction store as [|r store IH]; cbn; by constructor. Qed.

Lemma run_scan_listed_once os_walk stop a a0 :
  start_scan a = Returned a0 true ->
  NoDup (fmap path (appended (loop_reads (os_walk (path_var a))))) ->
  listed_once (run_scan os_walk stop a).
Proof.
  intros Hstart Hnd.
  destruct (run_scan_end os_walk stop a a0 Hstart) as (pre & Hpre & Hterm & _).
  cbn zeta in Hterm.
  assert (file_list (run_scan os_walk stop a) = sort_desc (file_list pre)
          /\ tree (run_scan os_walk stop a)
             = fmap row_of (file_list (run_scan os_walk stop a))) as [Hl Ht].
  { destruct (landed stop (S _)); destruct Hterm as [_ ->]; split; reflexivity. }
  split; [rewrite Ht; apply row_of_shown|]. rewrite Hl, sort_desc_perm, Hpre.
  eapply sublist_NoDup; [exact Hnd|]. apply fmap_sublist, appended_sublist, passed_sublist.
Qed.

Lemma select_all_listed_once a : listed_once a -> listed_once (select_all a).
Proof. intros [Ht Hnd]. split; [|done]. cbn. by apply Forall2_fmap_l. Qed.

(** The sample tree, scanned, is such a state. *)
Lemma scanned_app_listed_once : listed_once scanned_app.
Proof.
  apply select_all_listed_once.
  apply (run_scan_listed_once sample_walk None chosen_app running_app); [reflexivity|].
  apply (bool_decide_unpack _). vm_compute. exact I.
Qed.

Lemma delete_selected_all_exist_witness :
  listed_once scanned_app
  /\ selected_rows scanned_app ≠ []
  /\ (forall row, row ∈ selected_rows scanned_app -> sample_disk !! row_path row = Some None)
  /\ exists sel a' fs',
       selection scanned_app = Some sel
       /\ delete_selected true sample_disk scanned_app = Some (a', fs')
       /\ last (dialogs a')
          = Some (DlgDeletionComplete (Z.of_nat (length sel)) (total_size sel))
       /\ forall r, r ∈ sel -> (r ∉ file_list a') /\ fs' !! path r = None.
Proof.
  assert (H1 : listed_once scanned_app) by exact scanned_app_listed_once.
  assert (H2 : selected_rows scanned_app ≠ []) by (intros H; discriminate H).
  assert (H3 : forall row, row ∈ selected_rows scanned_app ->
                 sample_disk !! row_path row = Some None).
  { intros row Hrow. change (selected_rows scanned_app)
      with [mkRow "500" "/data/b.bin" true; mkRow "500" "/data/sub/d.iso" true;
            mkRow "10" "/data/a.bin" true; mkRow "3" "/data/sub/c.txt" true]%string in Hrow.
    repeat (apply elem_of_cons in Hrow as [->|Hrow]); try reflexivity.
    by apply elem_of_nil in Hrow. }
  destruct (delete_selected_all_exist sample_disk scanned_app H1 H2 H3)
    as (sel & a' & fs' & Hsel & _ & Hdel & _ & _ & Hbox & _ & _ & _ & Hgone).
  split; [exact H1|]. split; [exact H2|]. split; [exact H3|].
  exists sel, a', fs'. split; [exact Hsel|]. split; [exact Hdel|]. split; [exact Hbox|].
  intros r Hr. destruct (Hgone r Hr) as (Hr1 & Hr2 & _). split; [exact Hr1|exact Hr2].
Defined.

(** That every selected file exists is not enough: a file that is on disk
    and that [os.remove] refuses (here one held open by another program) is
    reported as a failure, is not counted as deleted and stays in the
    store, in the tree and on disk. *)
Lemma existing_file_refused :
  listed_once scanned_app
  /\ selected_rows scanned_app ≠ []
  /\ (forall row, row ∈ selected_rows scanned_app -> is_Some (locked_disk !! row_path row))
  /\ selection scanned_app = Some scanned_files
  /\ length scanned_files = 4%nat
  /\ failed (delete_files scanned_files (mkDeletion locked_disk (file_list scanned_app) 0 []))
     = [("/data/sub/c.txt", "file is in use")]%string
  /\ deleted (delete_files scanned_files (mkDeletion locked_disk (file_list scanned_app) 0 []))
     = 3
  /\ (fun r => (file_list (fst r), last (dialogs (fst r)), fmap row_path (tree (fst r)),
                snd r !! "/data/sub/c.txt"%string))
       <$> delete_selected true locked_disk scanned_app
     = Some ([(3, "/data/sub/c.txt")],
             Some (DlgDeletionErrors 3 [("/data/sub/c.txt", "file is in use")]),
             ["/data/sub/c.txt"],
             Some (Some "file is in use"))%string.
Proof.
  split; [exact scanned_app_listed_once|].
  split; [intros H; discriminate H|].
  split.
  { intros row Hrow. change (selected_rows scanned_app)
      with [mkRow "500" "/data/b.bin" true; mkRow "500" "/data/sub/d.iso" true;
            mkRow "10" "/data/a.bin" true; mkRow "3" "/data/sub/c.txt" true]%string in Hrow.
    repeat (apply elem_of_cons in Hrow as [->|Hrow]); try (eexists; reflexivity).
    by apply elem_of_nil in Hrow. }
  split_and!; reflexivity.
Qed.


(** * Further properties of the program *)

(** ** The sort is the stable sort *)

Lemma size_ge_transitive : Transitive size_ge.
Proof. intros a b c. unfold size_ge. lia. Qed.

Lemma of_size_cons k r l :
  of_size k (r :: l) = if decide (size r = k) then r :: of_size k l else of_size k l.
Proof. unfold of_size. by rewrite filter_cons. Qed.

Lemma of_size_app k l1 l2 : of_size k (l1 ++ l2) = of_size k l1 ++ of_size k l2.
Proof. apply filter_app. Qed.

Lemma of_size_elem k r l : r ∈ of_size k l <-> size r = k /\ r ∈ l.
Proof. unfold of_size. by rewrite list_elem_of_filter. Qed.

Lemma of_size_sort_desc k l : of_size k (sort_desc l) = of_size k l.
Proof. apply sort_desc_stable. Qed.

(** Two lists sorted largest first that hold, for every size, the same
    records in the same order, are the same list. *)
Lemma stable_sorted_unique l1 l2 :
  Sorted size_ge l1 -> Sorted size_ge l2 ->
  (forall k, of_size k l1 = of_size k l2) ->
  l1 = l2.
Proof.
  intros H1 H2. pose proof size_ge_transitive as Htrans.
  apply (Sorted_StronglySorted size_ge) in H1, H2.
  revert l2 H2. induction H1 as [|x l1 H1 IH Hx]; intros l2 H2 Heq.
  - destruct l2 as [|y l2]; [done|].
    specialize (Heq (size y)). rewrite of_size_cons, decide_True in Heq by done. done.
  - destruct l2 as [|y l2].
    { specialize (Heq (size x)). rewrite of_size_cons, decide_True in Heq by done. done. }
    inversion H2 as [|? ? H2' Hy]; subst.
    assert (size x = size y) as Hxy.
    { pose proof (Heq (size x)) as Ex. pose proof (Heq (size y)) as Ey.
      assert (x ∈ y :: l2) as Hxin.
      { apply (of_size_elem (size x)). rewrite <- Ex. apply of_size_elem. split; [done|by left]. }
      assert (y ∈ x :: l1) as Hyin.
      { apply (of_size_elem (size y)). rewrite Ey. apply of_size_elem. split; [done|by left]. }
      apply elem_of_cons in Hxin as [->|Hxin]; [done|].
      apply elem_of_cons in Hyin as [->|Hyin]; [done|].
      rewrite Forall_forall in Hx, Hy.
      pose proof (Hx _ Hyin) as Ha.
      pose proof (Hy _ Hxin) as Hb.
      unfold size_ge in Ha, Hb. lia. }
    assert (x = y) as ->.
    { specialize (Heq (size x)). rewrite !of_size_cons, <- Hxy in Heq.
      rewrite !decide_True in Heq by done. congruence. }
    f_equal. apply IH; [done|]. intros k. specialize (Heq k).
    rewrite !of_size_cons in Heq. destruct (decide (size y = k)); congruence.
Qed.

Lemma sort_desc_unique l l' :
  Sorted size_ge l' -> (forall k, of_size k l' = of_size k l) -> l' = sort_desc l.
Proof.
  intros Hs Heq. apply stable_sorted_unique; [done|apply sort_desc_sorted|].
  intros k. by rewrite of_size_sort_desc.
Qed.

Lemma sort_desc_same_by_size l1 l2 :
  (forall k, of_size k l1 = of_size k l2) -> sort_desc l1 = sort_desc l2.
Proof.
  intros Heq. apply sort_desc_unique; [apply sort_desc_sorted|].
  intros k. by rewrite of_size_sort_desc.
Qed.

(** X1: [sort_files] is the stable sort by size, largest first: it keeps the
    records of every size in the order they had, and any list that is sorted
    largest first and does so is the list [sort_files] leaves. *)
Theorem sort_files_is_stable_sort (a : App) :
  (forall k, of_size k (file_list (sort_files a)) = of_size k (file_list a))
  /\ forall l : list FileRecord,
       adjacent_desc l ->
       (forall k, of_size k l = of_size k (file_list a)) ->
       l = file_list (sort_files a).
Proof.
  split.
  - intros k. apply of_size_sort_desc.
  - intros l Hl Heq. apply sort_desc_unique; [by apply sorted_of_adjacent_desc|done].
Qed.

Lemma sort_files_is_stable_sort_witness :
  adjacent_desc [(1000, "/d/y"); (7, "/d/x"); (7, "/d/z")]%string
  /\ (forall k, of_size k [(1000, "/d/y"); (7, "/d/x"); (7, "/d/z")]%string
                = of_size k (file_list tied_app))
  /\ [(1000, "/d/y"); (7, "/d/x"); (7, "/d/z")]%string = file_list (sort_files tied_app).
Proof.
  assert (H1 : adjacent_desc [(1000, "/d/y"); (7, "/d/x"); (7, "/d/z")]%string).
  { apply adjacent_desc_of_sorted. repeat constructor; unfold size_ge; cbn; lia. }
  assert (H2 : forall k, of_size k [(1000, "/d/y"); (7, "/d/x"); (7, "/d/z")]%string
                         = of_size k (file_list tied_app)).
  { intros k. cbn [tied_app populate_tree set_tree set_file_list file_list init].
    rewrite !of_size_cons. cbn [size fst].
    destruct (decide (1000 = k)), (decide (7 = k)); try reflexivity; lia. }
  split; [exact H1|]. split; [exact H2|].
  exact (proj2 (sort_files_is_stable_sort tied_app) _ H1 H2).
Defined.

(** X2: sorting is idempotent and a sort in between changes nothing in the
    end: the list left by [sort_files] is left as it is by another
    [sort_files], and sorting a store that was sorted before more records
    were appended gives the same list as sorting it once with them. *)
Theorem sort_files_absorbs (a : App) (more : list FileRecord) :
  sort_files (sort_files a) = sort_files a
  /\ sort_desc (file_list (sort_files a) ++ more) = sort_desc (file_list a ++ more).
Proof.
  split.
  - unfold sort_files. cbn. by rewrite (sort_desc_sorted_id _ (sort_desc_sorted _)).
  - apply sort_desc_same_by_size. intros k.
    change (file_list (sort_files a)) with (sort_desc (file_list a)).
    by rewrite !of_size_app, (of_size_sort_desc k (file_list a)).
Qed.

(** ** The store during a scan, size by size *)

Lemma resort_if_due_of_size k a :
  of_size k (file_list (resort_if_due a)) = of_size k (file_list a).
Proof.
  unfold resort_if_due. destruct (_ >=? _); [|done]. apply of_size_sort_desc.
Qed.

Lemma record_file_of_size k filepath size c w :
  of_size k (file_list (app (snd (record_file filepath size c w))))
  = of_size k (file_list (app w) ++ [(size, filepath)]).
Proof. by rewrite record_file_app, resort_if_due_of_size. Qed.

Lemma passed_one_landed stop cp cps :
  landed stop 1 = true -> passed stop (cp :: cps) = [].
Proof. destruct stop as [[|n]|]; cbn; done. Qed.

Lemma scan_files_of_size k dirpath filenames c w :
  scanning (app w) = true ->
  of_size k (file_list (app (snd (scan_files dirpath filenames c w))))
  = of_size k (file_list (app w)
               ++ appended (passed (stop_in w) (fst (file_reads dirpath filenames)))).
Proof.
  revert c w. induction filenames as [|[filename stat] filenames IH]; intros c w Hlive.
  { cbn. by rewrite passed_nil, app_nil_r. }
  destruct (read_scanning_live_landed w Hlive) as (w1 & Hread & Hl1 & Hw1).
  cbn [scan_files]. rewrite Hread.
  destruct (landed_1_cases (stop_in w)) as [[Hland Hstop]|[Hland _]];
    rewrite Hland in Hw1 |- *; cbn [negb].
  { (* the stop lands at this read *)
    assert (exists cp cps, fst (file_reads dirpath ((filename, stat) :: filenames)) = cp :: cps)
      as (cp & cps & ->).
    { cbn. destruct stat; cbn; try destruct (file_reads dirpath filenames); cbn; eauto. }
    rewrite (passed_one_landed _ _ _ Hland). cbn. by rewrite app_nil_r, Hl1. }
  destruct Hw1 as [Hlive1 Hstop1].
  destruct stat as [size| |msg].
  - destruct (record_file (path_join dirpath filename) size c w1) as [c2 w2] eqn:Hrec.
    pose proof (record_file_scanning (path_join dirpath filename) size c w1) as Hsc.
    pose proof (record_file_of_size k (path_join dirpath filename) size c w1) as Hof.
    pose proof (record_file_stop_in (path_join dirpath filename) size c w1) as Hst.
    rewrite Hrec in Hsc, Hof, Hst. cbn [snd] in Hsc, Hof, Hst.
    rewrite IH by congruence. rewrite Hst, Hstop1.
    cbn [file_reads]. destruct (file_reads dirpath filenames) as [cps raised]. cbn [fst].
    rewrite (passed_cons _ _ _ Hland).
    change (appended (AtFile ?p (StatOk ?s) :: ?l)) with ([(s, p)] ++ appended l).
    rewrite of_size_app, Hof, Hl1, !of_size_app.
    by rewrite <- (assoc_L (++)).
  - rewrite IH by done. rewrite Hstop1, Hl1.
    cbn [file_reads]. destruct (file_reads dirpath filenames) as [cps raised]. cbn [fst].
    by rewrite (passed_cons _ _ _ Hland).
  - cbn [snd file_reads fst]. rewrite (passed_cons _ _ _ Hland), passed_nil. cbn.
    by rewrite app_nil_r, Hl1.
Qed.

Lemma scan_walk_of_size k walk c w :
  scanning (app w) = true ->
  of_size k (file_list (app (snd (scan_walk walk c w))))
  = of_size k (file_list (app w) ++ appended (passed (stop_in w) (loop_reads walk))).
Proof.
  revert c w. induction walk as [|msg|dirpath filenames rest IH]; intros c w Hlive.
  - cbn. by rewrite passed_nil, app_nil_r.
  - cbn. by rewrite passed_nil, app_nil_r.
  - destruct (read_scanning_live_landed w Hlive) as (w1 & Hread & Hl1 & Hw1).
    cbn [scan_walk loop_reads]. rewrite Hread.
    pose proof (scan_files_live dirpath filenames c w1) as Hfiles.
    pose proof (scan_files_of_size k dirpath filenames c w1) as Hof.
    destruct (file_reads dirpath filenames) as [cps raised]. cbn [fst snd] in *.
    destruct (landed_1_cases (stop_in w)) as [[Hland Hstop]|[Hland _]];
      rewrite Hland in Hw1 |- *; cbn [negb].
    { rewrite (passed_one_landed _ _ _ Hland). cbn. by rewrite app_nil_r, Hl1. }
    destruct Hw1 as [Hlive1 Hstop1].
    destruct (Hfiles Hlive1) as (exc & c2 & w2 & Heq & _ & Hw2). clear Hfiles.
    specialize (Hof Hlive1). rewrite Heq in Hof |- *. cbn [snd] in Hof.
    rewrite Hl1, Hstop1 in *.
    rewrite (passed_cons _ _ _ Hland), passed_app.
    change (appended (AtDir :: ?l)) with (appended l). rewrite appended_app.
    destruct (landed (delay_after (stop_in w) 1) (length cps)) eqn:Hland2.
    { destruct Hw2 as [Hstopped ->].
      destruct (scan_walk_stopped rest c2 w2 Hstopped) as (exc' & w3 & Heq3 & _ & Hl3).
      rewrite Heq3. cbn [snd]. rewrite Hl3, Hof.
      rewrite (passed_delay_landed _ _ _ Hland2). cbn. by rewrite !app_nil_r. }
    destruct Hw2 as (Hlive2 & Hstop2 & Hexc).
    destruct exc as [msg|].
    + assert (raised = true) as -> by (apply Hexc; by eexists).
      cbn [snd]. rewrite Hof, passed_nil. cbn. by rewrite !app_nil_r.
    + assert (raised = false) as ->.
      { destruct raised; [|done]. destruct Hexc as [_ H]. by destruct (H eq_refl). }
      rewrite IH by done. rewrite Hstop2, !of_size_app, Hof, !of_size_app.
      by rewrite <- (assoc_L (++)).
Qed.

(** ** What the scan thread and the progress callbacks leave alone *)

Lemma read_scanning_fields w :
  sort_threshold (app (snd (read_scanning w))) = sort_threshold (app w)
  /\ path_var (app (snd (read_scanning w))) = path_var (app w)
  /\ tree (app (snd (read_scanning w))) = tree (app w)
  /\ widgets (app (snd (read_scanning w))) = widgets (app w)
  /\ dialogs (app (snd (read_scanning w))) = dialogs (app w).
Proof. unfold read_scanning. by destruct (stop_in w) as [[|n]|]. Qed.

Lemma record_file_fields filepath size c w :
  sort_threshold (app (snd (record_file filepath size c w))) = sort_threshold (app w)
  /\ path_var (app (snd (record_file filepath size c w))) = path_var (app w)
  /\ tree (app (snd (record_file filepath size c w))) = tree (app w)
  /\ widgets (app (snd (record_file filepath size c w))) = widgets (app w)
  /\ dialogs (app (snd (record_file filepath size c w))) = dialogs (app w).
Proof.
  rewrite record_file_app. unfold resort_if_due. by destruct (_ >=? _).
Qed.

Lemma scan_step_fields (a0 : App) t t' :
  scan_step t t' ->
  (sort_threshold (app (snd t)) = sort_threshold a0
   /\ path_var (app (snd t)) = path_var a0
   /\ tree (app (snd t)) = tree a0
   /\ widgets (app (snd t)) = widgets a0
   /\ dialogs (app (snd t)) = dialogs a0) ->
  (sort_threshold (app (snd t')) = sort_threshold a0
   /\ path_var (app (snd t')) = path_var a0
   /\ tree (app (snd t')) = tree a0
   /\ widgets (app (snd t')) = widgets a0
   /\ dialogs (app (snd t')) = dialogs a0).
Proof.
  intros [c w|filepath size c w]; cbn [snd]; intros (H1 & H2 & H3 & H4 & H5).
  - destruct (read_scanning_fields w) as (-> & -> & -> & -> & ->). done.
  - destruct (record_file_fields filepath size c w) as (-> & -> & -> & -> & ->). done.
Qed.

Lemma run_progress_fields cbs a :
  Forall (fun cb => is_progress cb = true) cbs ->
  scanning (fold_left run_callback cbs a) = scanning a
  /\ sort_threshold (fold_left run_callback cbs a) = sort_threshold a
  /\ files_since_sort (fold_left run_callback cbs a) = files_since_sort a
  /\ path_var (fold_left run_callback cbs a) = path_var a
  /\ tree (fold_left run_callback cbs a) = tree a
  /\ widgets (fold_left run_callback cbs a) = widgets a.
Proof.
  intros H. revert a. induction H as [|cb cbs Hcb _ IH]; intros a; cbn; [done|].
  destruct (IH (run_callback a cb)) as (-> & -> & -> & -> & -> & ->). by destruct cb.
Qed.

Lemma start_scan_idle a :
  scanning a = false -> start_scan a = Returned (after_start a) true.
Proof. intros H. unfold after_start, start_scan. by rewrite H. Qed.

Lemma scan_step_no_dialog t t' :
  scan_step t t' ->
  omap dialog_of (posted (snd t)) = [] -> omap dialog_of (posted (snd t')) = [].
Proof.
  intros [c w|filepath size c w]; cbn [snd]; intros H.
  - by rewrite read_scanning_posted.
  - unfold record_file. cbn [snd]. destruct (_ =? _); cbn [post set_app posted]; [|done].
    by rewrite omap_app, H.
Qed.

(** A walk that raises nowhere lets no exception out of the loops. *)
Lemma scan_files_no_raise dirpath filenames c w :
  snd (file_reads dirpath filenames) = false ->
  fst (fst (scan_files dirpath filenames c w)) = None.
Proof.
  revert c w. induction filenames as [|[filename stat] filenames IH]; intros c w Hno; [done|].
  cbn [scan_files]. destruct (read_scanning w) as [running w1].
  destruct running; cbn [negb]; [|done].
  cbn [file_reads] in Hno.
  destruct stat as [size| |msg]; [| |done];
    destruct (file_reads dirpath filenames) as [cps raised] eqn:Hreads; cbn [snd] in *.
  - destruct (record_file _ size c w1) as [c2 w2]. by apply IH.
  - by apply IH.
Qed.

Lemma scan_walk_no_raise walk c w :
  walk_raises walk = false -> fst (fst (scan_walk walk c w)) = None.
Proof.
  revert c w. induction walk as [|msg|dirpath filenames rest IH]; intros c w Hno;
    [done|done|].
  cbn [walk_raises] in Hno. apply orb_false_iff in Hno as [Hfiles Hrest].
  cbn [scan_walk]. destruct (read_scanning w) as [running w1].
  destruct running; cbn [negb]; [|done].
  pose proof (scan_files_no_raise dirpath filenames c w1 Hfiles) as Hexc.
  destruct (scan_files dirpath filenames c w1) as [[exc c2] w2]. cbn [fst] in Hexc.
  subst exc. by apply IH.
Qed.

(** The state the terminal callback runs on, and which callback it is. *)
Lemma run_scan_pre os_walk stop a :
  scanning a = false ->
  exists pre : App,
    let cps := loop_reads (os_walk (path_var a)) in
    let kept := appended (passed stop cps) in
    let n := Z.of_nat (length kept) in
    run_scan os_walk stop a
    = (if landed stop (S (length cps)) then scan_cancelled n pre else finalize_scan n pre)
    /\ (forall k, of_size k (file_list pre) = of_size k kept)
    /\ sort_threshold pre = sort_threshold a
    /\ path_var pre = path_var a
    /\ exists errors : list string,
         dialogs pre = dialogs a ++ fmap DlgScanError errors
         /\ (length errors <= 1)%nat
         /\ (walk_raises (os_walk (path_var a)) = false -> errors = []).
Proof.
  intros Hidle. pose proof (start_scan_idle a Hidle) as Hstart.
  destruct (run_scan_end os_walk stop a _ Hstart) as (pre & Hpre & Hterm & _).
  cbn zeta in Hterm.
  set (w0 := mkWorker (after_start a) stop []).
  assert (scanning (app w0) = true) as Hlive.
  { cbn. unfold after_start, start_scan. by rewrite Hidle. }
  assert (file_list (app w0) = [] /\ path_var (app w0) = path_var a
          /\ sort_threshold (app w0) = sort_threshold a
          /\ dialogs (app w0) = dialogs a) as (Hnil & Hpath & Hthr & Hdlg).
  { cbn. unfold after_start, start_scan. by rewrite Hidle. }
  pose proof (scan_walk_steps (os_walk (path_var a)) 0 w0) as Hsteps.
  pose proof (scan_walk_no_raise (os_walk (path_var a)) 0 w0) as Hnoraise.
  destruct (scan_walk (os_walk (path_var a)) 0 w0) as [[exc c] w1] eqn:Hwalk.
  cbn [fst] in Hnoraise.
  unfold scan_result in Hsteps. cbn [fst snd] in Hsteps.
  assert (forall k, of_size k (file_list (app w1))
                    = of_size k (appended (passed stop (loop_reads (os_walk (path_var a))))))
    as Hof.
  { intros k. pose proof (scan_walk_of_size k (os_walk (path_var a)) 0 w0 Hlive) as H.
    rewrite Hwalk, Hnil in H. exact H. }
  assert (Forall (fun cb => is_progress cb = true) (posted w1)) as Hposted.
  { apply (scan_steps_invariant
             (fun t => Forall (fun cb => is_progress cb = true) (posted (snd t))) _ _
             scan_step_posted Hsteps). constructor. }
  assert (omap dialog_of (posted w1) = []) as Hquiet.
  { by apply (scan_steps_invariant
                (fun t => omap dialog_of (posted (snd t)) = []) _ _
                scan_step_no_dialog Hsteps). }
  assert (sort_threshold (app w1) = sort_threshold a /\ path_var (app w1) = path_var a
          /\ dialogs (app w1) = dialogs a)
    as (Hthr1 & Hpath1 & Hdlg1).
  { destruct (scan_steps_invariant
                (fun t => sort_threshold (app (snd t)) = sort_threshold (app w0)
                          /\ path_var (app (snd t)) = path_var (app w0)
                          /\ tree (app (snd t)) = tree (app w0)
                          /\ widgets (app (snd t)) = widgets (app w0)
                          /\ dialogs (app (snd t)) = dialogs (app w0)) _ _
                (scan_step_fields (app w0)) Hsteps) as (H1 & H2 & _ & _ & H5); [done|].
    cbn [snd] in H1, H2, H5. by rewrite H1, H2, H5. }
  set (w1' := match exc with Some msg => post (CbShowError msg) w1 | None => w1 end).
  assert (app w1' = app w1 /\ Forall (fun cb => is_progress cb = true) (posted w1'))
    as [Happ Hposted'].
  { subst w1'. destruct exc as [msg|]; cbn; split; try done.
    apply Forall_app. split; [done|]. by repeat constructor. }
  destruct (read_scanning w1') as [running w2] eqn:Hread.
  pose proof (read_scanning_file_list w1') as Hl2.
  pose proof (read_scanning_posted w1') as Hp2.
  destruct (read_scanning_fields w1') as (Ht2 & Hv2 & _ & _ & Hd2).
  rewrite Hread in Hl2, Hp2, Ht2, Hv2, Hd2. cbn [snd] in Hl2, Hp2, Ht2, Hv2, Hd2.
  rewrite Happ in Hl2, Ht2, Hv2, Hd2.
  replace (path_var a) with (path_var (app w0)) in Hwalk by done.
  pose proof (scan_folder_eq _ _ _ _ _ _ _ Hwalk Hread) as Hfolder.
  assert (Forall (fun cb => is_progress cb = true) (posted w2)) as Hposted2
    by (by rewrite Hp2).
  destruct (run_progress_fields (posted w2) (app w2) Hposted2) as (_ & Hf2 & _ & Hf4 & _).
  exists (mainloop w2). cbn zeta.
  assert (run_scan os_walk stop a
          = run_callback (mainloop w2)
              (if running then CbFinalizeScan c else CbScanCancelled c)) as Hrun.
  { rewrite (run_scan_spawned _ _ _ _ Hstart). fold w0. by rewrite Hfolder, mainloop_post. }
  assert (terminal (scan_folder os_walk w0)
          = Some (if running then Completed c else Cancelled c)) as Hterm'.
  { rewrite Hfolder, terminal_post. by destruct running. }
  fold w0 in Hterm.
  split.
  - rewrite Hrun.
    destruct (landed stop (S _)); destruct Hterm as [Hterm _]; rewrite Hterm in Hterm';
      destruct running; by simplify_eq.
  - split; [|split; [|split]].
    + intros k. unfold mainloop. rewrite run_progress_file_list by done. by rewrite Hl2.
    + unfold mainloop. by rewrite Hf2, Ht2.
    + unfold mainloop. by rewrite Hf4, Hv2.
    + exists (match exc with Some msg => [msg] | None => [] end).
      unfold mainloop. rewrite run_progress_dialogs by done.
      rewrite Hd2, Hdlg1, Hp2. split; [|split].
      * f_equal. subst w1'. destruct exc; cbn [post posted]; [|done].
        by rewrite omap_app, Hquiet.
      * destruct exc; cbn; lia.
      * intros Hno. by rewrite (Hnoraise Hno).
Qed.

(** ** The result of a scan *)

Lemma run_scan_file_list os_walk stop a :
  scanning a = false ->
  file_list (run_scan os_walk stop a)
  = sort_desc (appended (passed stop (loop_reads (os_walk (path_var a))))).
Proof.
  intros Hidle. destruct (run_scan_pre os_walk stop a Hidle) as (pre & Hrun & Hof & _).
  cbn zeta in Hrun. rewrite Hrun.
  assert (sort_desc (file_list pre)
          = sort_desc (appended (passed stop (loop_reads (os_walk (path_var a)))))) as <-
    by (by apply sort_desc_same_by_size).
  by destruct (landed stop (S _)).
Qed.

Lemma run_scan_idle_fields os_walk stop a :
  scanning a = false ->
  scanning (run_scan os_walk stop a) = false
  /\ widgets (run_scan os_walk stop a) = widgets_idle
  /\ path_var (run_scan os_walk stop a) = path_var a
  /\ sort_threshold (run_scan os_walk stop a) = sort_threshold a
  /\ tree (run_scan os_walk stop a) = fmap row_of (file_list (run_scan os_walk stop a)).
Proof.
  intros Hidle. destruct (run_scan_pre os_walk stop a Hidle) as (pre & Hrun & _ & Hthr & Hpath & _).
  cbn zeta in Hrun. rewrite Hrun. clear Hrun.
  destruct (landed stop (S (length (loop_reads (os_walk (path_var a))))));
    split_and!; done.
Qed.

(** X3: the file list a scan leaves is exactly the stable sort, largest
    first, of the records appended at the checkpoints passed, in the order
    they were found: files of equal size stay in the order of discovery, and
    neither the periodic sorts (the value of [sort_threshold]) nor what the
    store held before the scan has any influence on it. *)
Theorem scan_result_is_stable_sort (os_walk : string -> Walk) (stop : option nat) (a : App) :
  scanning a = false ->
  file_list (run_scan os_walk stop a)
  = sort_desc (appended (passed stop (loop_reads (os_walk (path_var a)))))
  /\ forall b : App,
       scanning b = false -> path_var b = path_var a ->
       file_list (run_scan os_walk stop b) = file_list (run_scan os_walk stop a).
Proof.
  intros Hidle. split; [by apply run_scan_file_list|].
  intros b Hb Hpath. by rewrite !run_scan_file_list, Hpath.
Qed.

Lemma scan_result_is_stable_sort_witness :
  scanning chosen_app = false
  /\ file_list (run_scan sample_walk (Some 5%nat) chosen_app)
     = [(500, "/data/b.bin"); (10, "/data/a.bin")]%string
  /\ file_list (run_scan sample_walk (Some 5%nat)
                  (set_file_list [(1, "old")]%string
                     (mkApp [] false 2 0 (path_var chosen_app) StReady [] widgets_idle [])))
     = file_list (run_scan sample_walk (Some 5%nat) chosen_app).
Proof.
  assert (H : scanning chosen_app = false) by reflexivity.
  destruct (scan_result_is_stable_sort sample_walk (Some 5%nat) chosen_app H) as [H1 H2].
  split; [exact H|]. split; [rewrite H1; reflexivity|].
  apply H2; reflexivity.
Defined.

Lemma fresh_rows_unselected (l : list FileRecord) :
  filter (fun row => row_selected row = true) (fmap row_of l) = [].
Proof.
  induction l as [|r l IH]; [done|].
  rewrite fmap_cons, filter_cons. case_decide as H; [discriminate H|exact IH].
Qed.

(** X6: every scan that starts also ends, whatever the walk yields or raises
    and whenever the stop comes: the flag [scanning] is cleared, all buttons
    are back in their idle state with the progress bar stopped, the tree shows
    the file list row by row, and the chosen path and the sort threshold are
    what they were. *)
Theorem scan_always_ends_idle (os_walk : string -> Walk) (stop : option nat) (a : App) :
  scanning a = false ->
  scanning (run_scan os_walk stop a) = false
  /\ widgets (run_scan os_walk stop a) = widgets_idle
  /\ tree (run_scan os_walk stop a) = fmap row_of (file_list (run_scan os_walk stop a))
  /\ selected_rows (run_scan os_walk stop a) = []
  /\ path_var (run_scan os_walk stop a) = path_var a
  /\ sort_threshold (run_scan os_walk stop a) = sort_threshold a.
Proof.
  intros Hidle.
  destruct (run_scan_idle_fields os_walk stop a Hidle) as (H1 & H2 & H3 & H4 & H5).
  split_and!; try done.
  unfold selected_rows. rewrite H5. apply fresh_rows_unselected.
Qed.

Lemma scan_always_ends_idle_witness :
  scanning chosen_app = false
  /\ scanning (run_scan broken_walk (Some 2%nat) chosen_app) = false
  /\ widgets (run_scan broken_walk (Some 2%nat) chosen_app) = widgets_idle.
Proof.
  assert (H : scanning chosen_app = false) by reflexivity.
  destruct (scan_always_ends_idle broken_walk (Some 2%nat) chosen_app H) as (H1 & H2 & _).
  split; [exact H|]. split; [exact H1|exact H2].
Defined.

(** X7: a scan replaces the results of the scan before it: scanning again
    (under any interleaving of the stop in either scan) leaves the file list
    a single scan of the same tree leaves, nothing of the first scan is kept
    or counted twice. *)
Theorem rescan_replaces_results (os_walk : string -> Walk) (stop1 stop2 : option nat)
    (a : App) :
  scanning a = false ->
  file_list (run_scan os_walk stop2 (run_scan os_walk stop1 a))
  = file_list (run_scan os_walk stop2 a).
Proof.
  intros Hidle.
  destruct (run_scan_idle_fields os_walk stop1 a Hidle) as (H1 & _ & H3 & _).
  by rewrite (run_scan_file_list _ _ _ H1), H3, (run_scan_file_list _ _ _ Hidle).
Qed.

Lemma rescan_replaces_results_witness :
  scanning chosen_app = false
  /\ file_list (run_scan sample_walk None (run_scan sample_walk (Some 3%nat) chosen_app))
     = file_list (run_scan sample_walk None chosen_app).
Proof.
  assert (H : scanning chosen_app = false) by reflexivity.
  split; [exact H|]. exact (rescan_replaces_results sample_walk (Some 3%nat) None chosen_app H).
Defined.

(** ** A scan that is not stopped *)

Lemma appended_file_reads dirpath filenames :
  appended (fst (file_reads dirpath filenames)) = fst (dir_records dirpath filenames)
  /\ snd (file_reads dirpath filenames) = snd (dir_records dirpath filenames).
Proof.
  induction filenames as [|[filename stat] filenames [IH1 IH2]]; [done|].
  cbn [file_reads dir_records].
  destruct stat as [size| |msg]; [| |done];
    destruct (file_reads dirpath filenames) as [cps raised],
             (dir_records dirpath filenames) as [records raised'];
    cbn [fst snd] in *; [|done].
  split; [|done]. change (appended (AtFile ?p (StatOk ?s) :: ?l)) with ((s, p) :: appended l).
  by rewrite IH1.
Qed.

Lemma appended_loop_reads walk : appended (loop_reads walk) = walk_records walk.
Proof.
  induction walk as [|msg|dirpath filenames rest IH]; [done|done|].
  cbn [loop_reads walk_records].
  destruct (appended_file_reads dirpath filenames) as [H1 H2].
  destruct (file_reads dirpath filenames) as [cps raised],
           (dir_records dirpath filenames) as [records raised'].
  cbn [fst snd] in *. subst raised'.
  change (appended (AtDir :: ?l)) with (appended l).
  rewrite appended_app, H1. by destruct raised; [|rewrite IH].
Qed.

Lemma dir_records_readable dirpath filenames :
  fst (dir_records dirpath filenames) `prefix_of` dir_readable dirpath filenames
  /\ (snd (dir_records dirpath filenames) = false ->
      fst (dir_records dirpath filenames) = dir_readable dirpath filenames).
Proof.
  induction filenames as [|[filename stat] filenames [IHp IHe]]; [done|].
  unfold dir_readable in *. cbn [dir_records omap list_omap fst snd].
  destruct stat as [size| |msg]; cbn [fst snd].
  - destruct (dir_records dirpath filenames) as [records raised]. cbn [fst snd] in *.
    split; [by apply prefix_cons|]. intros H. by rewrite (IHe H).
  - done.
  - split; [apply prefix_nil|done].
Qed.

Lemma walk_raises_dir_records walk :
  walk_raises walk = false ->
  match walk with
  | WalkDir dirpath filenames rest =>
      snd (dir_records dirpath filenames) = false /\ walk_raises rest = false
  | _ => True
  end.
Proof.
  destruct walk as [|msg|dirpath filenames rest]; [done..|]. cbn [walk_raises].
  intros [H1 H2]%orb_false_iff. split; [|done].
  by rewrite <- (proj2 (appended_file_reads dirpath filenames)).
Qed.

Lemma walk_records_readable walk :
  walk_records walk `prefix_of` readable_files walk
  /\ (walk_raises walk = false -> walk_records walk = readable_files walk).
Proof.
  induction walk as [|msg|dirpath filenames rest [IHp IHe]]; [done..|].
  cbn [walk_records readable_files].
  destruct (dir_records_readable dirpath filenames) as [Hp He].
  destruct (dir_records dirpath filenames) as [records raised] eqn:Hdir.
  cbn [fst snd] in *. split.
  - destruct raised.
    + rewrite app_nil_r. by apply prefix_app_r.
    + rewrite (He eq_refl). by apply prefix_app.
  - intros Hw. apply walk_raises_dir_records in Hw as [Hs Hr]. rewrite Hdir in Hs.
    cbn [snd] in Hs. subst raised. by rewrite (He eq_refl), (IHe Hr).
Qed.

(** X4: a scan that is not stopped ends on the completed path, also when it
    met an exception, and lists the files whose size was read before the
    first exception that is not an [OSError], largest first, ties in the
    order of the walk.  A file whose size cannot be read for an [OSError] is
    left out and the scan goes on with the next file; any other exception
    ends the scan, so the files listed are a leading part of the readable
    files of the walk, and all of them when nothing raises.  The status line
    reports the number of the files listed and the sum of their sizes. *)
Theorem unstopped_scan_lists_files_read (os_walk : string -> Walk) (a : App) :
  scanning a = false ->
  file_list (run_scan os_walk None a) = sort_desc (walk_records (os_walk (path_var a)))
  /\ terminal (scan_folder os_walk (mkWorker (after_start a) None []))
     = Some (Completed (Z.of_nat (length (walk_records (os_walk (path_var a))))))
  /\ status_var (run_scan os_walk None a)
     = StComplete (Z.of_nat (length (walk_records (os_walk (path_var a)))))
         (total_size (walk_records (os_walk (path_var a))))
  /\ walk_records (os_walk (path_var a)) `prefix_of` readable_files (os_walk (path_var a))
  /\ (walk_raises (os_walk (path_var a)) = false ->
      file_list (run_scan os_walk None a)
      = sort_desc (readable_files (os_walk (path_var a)))).
Proof.
  intros Hidle.
  pose proof (run_scan_file_list os_walk None a Hidle) as Hl.
  destruct (run_scan_pre os_walk None a Hidle) as (pre & Hrun & Hof & _).
  destruct (run_scan_end os_walk None a _ (start_scan_idle a Hidle)) as (pre' & _ & Hterm & _).
  cbn zeta in Hrun, Hterm. cbn [passed landed] in Hl, Hrun, Hof, Hterm.
  rewrite appended_loop_reads in Hl, Hrun, Hof, Hterm.
  destruct (walk_records_readable (os_walk (path_var a))) as [Hprefix Hall].
  split; [done|]. split; [by destruct Hterm|]. split.
  { rewrite Hrun. cbn. f_equal.
    rewrite (sort_desc_same_by_size _ _ Hof). apply total_size_perm, sort_desc_perm. }
  split; [exact Hprefix|].
  intros Hw. by rewrite Hl, (Hall Hw).
Qed.

Lemma unstopped_scan_lists_files_read_witness :
  scanning chosen_app = false
  /\ walk_records (sample_walk "/data")
     = [(10, "/data/a.bin"); (500, "/data/b.bin"); (3, "/data/sub/c.txt");
        (500, "/data/sub/d.iso")]%string
  /\ file_list (run_scan sample_walk None chosen_app)
     = sort_desc (walk_records (sample_walk (path_var chosen_app)))
  /\ status_var (run_scan sample_walk None chosen_app) = StComplete 4 1013
  /\ walk_raises (sample_walk (path_var chosen_app)) = false
  /\ file_list (run_scan sample_walk None chosen_app)
     = sort_desc (readable_files (sample_walk (path_var chosen_app))).
Proof.
  assert (H : scanning chosen_app = false) by reflexivity.
  assert (Hw : walk_raises (sample_walk (path_var chosen_app)) = false) by reflexivity.
  destruct (unstopped_scan_lists_files_read sample_walk chosen_app H)
    as (H1 & _ & H3 & _ & H5).
  split; [exact H|]. split; [reflexivity|]. split; [exact H1|]. split; [exact H3|].
  split; [exact Hw|exact (H5 Hw)].
Defined.

(** A file whose size raises a [ValueError] ends the scan: the readable files
    after it are not listed, and the scan still ends as completed. *)
Example exception_ends_scan_as_completed :
  readable_files (faulty_walk "/data")
  = [(10, "/data/a.bin"); (500, "/data/c.bin"); (3, "/data/sub/d.iso")]%string
  /\ file_list (run_scan faulty_walk None chosen_app) = [(10, "/data/a.bin")]%string
  /\ status_var (run_scan faulty_walk None chosen_app) = StComplete 1 10
  /\ dialogs (run_scan faulty_walk None chosen_app) = [DlgScanError "ValueError"].
Proof. split_and!; reflexivity. Qed.

(** ** The progress notifications *)

Lemma progress_counts_succ c :
  0 <= c ->
  progress_counts (c + 1)
  = if (c + 1) mod 100 =? 0 then progress_counts c ++ [c + 1] else progress_counts c.
Proof.
  intros Hc. unfold progress_counts.
  destruct ((c + 1) mod 100 =? 0) eqn:Hmod.
  - apply Z.eqb_eq in Hmod.
    assert ((c + 1) / 100 = c / 100 + 1) as -> by (Z.div_mod_to_equations; lia).
    assert (0 <= c / 100) by (Z.div_mod_to_equations; lia).
    rewrite Z2Nat.inj_add by lia. change (Z.to_nat 1) with 1%nat.
    rewrite Nat.add_1_r, seq_S, fmap_app. cbn [fmap list_fmap]. do 2 f_equal.
    rewrite Nat2Z.inj_add, Z2Nat.id by lia. Z.div_mod_to_equations; lia.
  - apply Z.eqb_neq in Hmod.
    by assert ((c + 1) / 100 = c / 100) as -> by (Z.div_mod_to_equations; lia).
Qed.

Lemma scan_step_progress t t' :
  scan_step t t' ->
  (0 <= fst t /\ posted (snd t) = fmap progress_callback (progress_counts (fst t))) ->
  (0 <= fst t' /\ posted (snd t') = fmap progress_callback (progress_counts (fst t'))).
Proof.
  intros [c w|filepath size c w]; cbn [fst snd]; intros [Hc Hp].
  - by rewrite read_scanning_posted.
  - rewrite record_file_count. split; [lia|].
    rewrite (progress_counts_succ c Hc). unfold record_file. cbn [snd].
    destruct ((c + 1) mod 100 =? 0); cbn [post set_app posted]; rewrite Hp; [|done].
    by rewrite fmap_app.
Qed.

Lemma progress_counts_elem n m :
  m ∈ progress_counts n <-> 0 < m <= n /\ m mod 100 = 0.
Proof.
  unfold progress_counts. rewrite list_elem_of_fmap. split.
  - intros (i & -> & Hi%elem_of_seq).
    assert (Z.of_nat i <= n / 100) by lia.
    split; [|by rewrite Z.mul_comm, Z_mod_mult].
    split; [lia|]. Z.div_mod_to_equations; lia.
  - intros [[Hpos Hle] Hmod]. exists (Z.to_nat (m / 100)).
    assert (m = 100 * (m / 100)) as Hm by (Z.div_mod_to_equations; lia).
    split; [rewrite Z2Nat.id; [done|Z.div_mod_to_equations; lia]|].
    apply elem_of_seq.
    assert (1 <= m / 100 <= n / 100) by (Z.div_mod_to_equations; lia). lia.
Qed.

(** X5: the scan thread schedules a status update exactly when its count of
    files reaches a multiple of 100: the callbacks it leaves in the queue are
    the updates for 100, 200, ... up to the number [n] of files recorded, in
    this (increasing) order, then the error box if the scan met an
    exception, and last the one terminal notification, which carries [n]. *)
Theorem progress_every_hundred_files (os_walk : string -> Walk) (stop : option nat)
    (a : App) :
  scanning a = false ->
  exists (n : Z) (errors : list string),
    posted (scan_folder os_walk (mkWorker (after_start a) stop []))
    = fmap progress_callback (progress_counts n)
      ++ fmap CbShowError errors
      ++ [if landed stop (S (length (loop_reads (os_walk (path_var a)))))
          then CbScanCancelled n else CbFinalizeScan n]
    /\ n = Z.of_nat (length (appended (passed stop (loop_reads (os_walk (path_var a))))))
    /\ (length errors <= 1)%nat
    /\ (forall m, m ∈ progress_counts n <-> 0 < m <= n /\ m mod 100 = 0)
    /\ StronglySorted Z.lt (progress_counts n).
Proof.
  intros Hidle. pose proof (start_scan_idle a Hidle) as Hstart.
  destruct (run_scan_end os_walk stop a _ Hstart) as (pre & _ & Hterm & _).
  cbn zeta in Hterm.
  set (w0 := mkWorker (after_start a) stop []) in *.
  assert (path_var (app w0) = path_var a) as Hpath.
  { cbn. unfold after_start, start_scan. by rewrite Hidle. }
  pose proof (scan_walk_steps (os_walk (path_var a)) 0 w0) as Hsteps.
  destruct (scan_walk (os_walk (path_var a)) 0 w0) as [[exc c] w1] eqn:Hwalk.
  unfold scan_result in Hsteps. cbn [fst snd] in Hsteps.
  destruct (scan_steps_invariant
              (fun t => 0 <= fst t
                        /\ posted (snd t) = fmap progress_callback (progress_counts (fst t)))
              _ _ scan_step_progress Hsteps) as [Hc Hposted]; [done|].
  cbn [fst snd] in Hc, Hposted.
  set (w1' := match exc with Some msg => post (CbShowError msg) w1 | None => w1 end).
  destruct (read_scanning w1') as [running w2] eqn:Hread.
  pose proof (read_scanning_posted w1') as Hp2. rewrite Hread in Hp2. cbn [snd] in Hp2.
  rewrite <- Hpath in Hwalk.
  pose proof (scan_folder_eq _ _ _ _ _ _ _ Hwalk Hread) as Hfolder.
  assert (terminal (scan_folder os_walk w0)
          = Some (if running then Completed c else Cancelled c)) as Hterm'.
  { rewrite Hfolder, terminal_post. by destruct running. }
  exists c, (match exc with Some msg => [msg] | None => [] end).
  split; [|split; [|split; [|split]]].
  - rewrite Hfolder. cbn [post posted]. rewrite Hp2, (assoc_L (++)). f_equal.
    + subst w1'. destruct exc; cbn [post posted fmap list_fmap]; rewrite Hposted; [done|].
      by rewrite app_nil_r.
    + destruct (landed stop (S _)); destruct Hterm as [Hterm _]; rewrite Hterm in Hterm';
        destruct running; by simplify_eq.
  - destruct (landed stop (S _)); destruct Hterm as [Hterm _]; rewrite Hterm in Hterm';
      destruct running; by simplify_eq.
  - destruct exc; cbn; lia.
  - apply progress_counts_elem.
  - unfold progress_counts. generalize (Z.to_nat (c / 100)) as k. intros k.
    generalize 1%nat as i. induction k as [|k IH]; intros i; cbn; constructor.
    + apply IH.
    + apply Forall_forall. intros m (j & -> & Hj%elem_of_seq)%list_elem_of_fmap. lia.
Qed.

Lemma progress_every_hundred_files_witness :
  scanning chosen_app = false
  /\ exists (n : Z) (errors : list string),
       posted (scan_folder sample_walk (mkWorker (after_start chosen_app) None []))
       = fmap progress_callback (progress_counts n)
         ++ fmap CbShowError errors
         ++ [if landed None (S (length (loop_reads (sample_walk (path_var chosen_app)))))
             then CbScanCancelled n else CbFinalizeScan n].
Proof.
  assert (H : scanning chosen_app = false) by reflexivity.
  destruct (progress_every_hundred_files sample_walk None chosen_app H)
    as (n & errors & Hp & _).
  split; [exact H|]. exists n, errors. exact Hp.
Defined.

(** ** The rows of the tree and the selection *)

Lemma mapM_read_row_paths rows sel :
  mapM read_row rows = Some sel ->
  fmap path sel = fmap row_path rows /\ length sel = length rows.
Proof.
  intros H%mapM_Some_1. induction H as [|row r rows sel Hr _ [IH1 IH2]]; [done|].
  rewrite !fmap_cons, IH1. cbn [length]. rewrite IH2. split; [|done]. f_equal.
  unfold read_row in Hr. destruct (int_of_str _); cbn in Hr; by simplify_eq.
Qed.

Lemma mapM_read_row_of (l : list FileRecord) :
  mapM read_row (fmap (fun r => mkRow (format_thousands (size r)) (path r) true) l) = Some l.
Proof.
  apply mapM_Some_2. induction l as [|r l IH]; cbn; constructor; [|done].
  apply read_row_of.
Qed.

(** X8: what [populate_tree] writes into the tree reads back as the store:
    with every row selected ([select_all]) the records [delete_selected]
    would read from the columns are exactly the records of the file list, in
    their order, so the size survives its rendering with thousands
    separators; a freshly populated tree has no selected row, and neither has
    any tree after [clear_selection]. *)
Theorem tree_reads_back_as_store (a : App) :
  selection (select_all (populate_tree a)) = Some (file_list a)
  /\ file_list (select_all (populate_tree a)) = file_list a
  /\ selected_rows (populate_tree a) = []
  /\ selected_rows (clear_selection a) = []
  /\ forall r : FileRecord, read_row (row_of r) = Some r.
Proof.
  split_and!.
  - unfold selection, selected_rows. cbn [select_all populate_tree set_tree tree].
    rewrite <- list_fmap_compose.
    rewrite (filter_all _ _); [apply mapM_read_row_of|].
    apply Forall_forall. by intros row (r & -> & _)%list_elem_of_fmap.
  - reflexivity.
  - apply fresh_rows_unselected.
  - unfold selected_rows. cbn [clear_selection set_tree tree].
    induction (tree a) as [|row rows IH]; [done|].
    rewrite fmap_cons, filter_cons. case_decide as H; [discriminate H|exact IH].
  - intros r. apply read_row_of.
Qed.

(** ** What a deletion leaves alone *)

Lemma delete_files_fs_other files d p :
  p ∉ fmap path files -> del_fs (delete_files files d) !! p = del_fs d !! p.
Proof.
  revert d. induction files as [|[s q] files IH]; intros d Hp; [done|].
  rewrite fmap_cons in Hp. apply not_elem_of_cons in Hp as [Hne Hp]. cbn [path snd] in Hne.
  rewrite delete_files_cons, IH by done.
  destruct (os_remove q (del_fs d)) as [fs'|msg] eqn:Hrm; cbn [del_fs]; [|done].
  unfold os_remove in Hrm. destruct (del_fs d !! q) as [[?|]|]; simplify_eq.
  by rewrite lookup_delete_ne.
Qed.

Lemma delete_files_fs_shrinks files d p :
  del_fs (delete_files files d) !! p = del_fs d !! p
  \/ del_fs (delete_files files d) !! p = None.
Proof.
  revert d. induction files as [|[s q] files IH]; intros d; [by left|].
  rewrite delete_files_cons.
  destruct (os_remove q (del_fs d)) as [fs'|msg] eqn:Hrm.
  - destruct (IH (mkDeletion fs' (remove_exact (s, q) (del_file_list d)) (deleted d + 1)
                    (failed d))) as [H|H]; [|by right].
    rewrite H. cbn [del_fs]. unfold os_remove in Hrm.
    destruct (del_fs d !! q) as [[?|]|]; simplify_eq.
    destruct (decide (q = p)) as [->|Hne]; [right; apply lookup_delete_eq|].
    left. by rewrite lookup_delete_ne.
  - apply (IH (mkDeletion (del_fs d) (del_file_list d) (deleted d) (failed d ++ [(q, msg)]))).
Qed.

(** X9: nothing is removed without a selection and the user's consent: when
    no row is selected [delete_selected] only shows its notice, and when the
    confirmation is declined it only has asked; in both cases the disk, the
    file list and the tree are what they were. *)
Theorem delete_needs_selection_and_consent (confirm : bool) (fs fs' : FileSystem)
    (a a' : App) :
  delete_selected confirm fs a = Some (a', fs') ->
  selected_rows a = [] \/ confirm = false ->
  fs' = fs
  /\ file_list a' = file_list a
  /\ tree a' = tree a
  /\ (selected_rows a = [] -> dialogs a' = dialogs a ++ [DlgNoSelection])
  /\ (selected_rows a ≠ [] ->
      exists n total, dialogs a' = dialogs a ++ [DlgConfirmDeletion n total]).
Proof.
  intros Hdel Hcase. unfold delete_selected in Hdel.
  destruct (selected_rows a) as [|row rows] eqn:Hrows.
  { injection Hdel as <- <-. by split_and!. }
  destruct Hcase as [?| ->]; [done|].
  destruct (selection a) as [sel|]; cbn in Hdel; [|done].
  injection Hdel as <- <-. split_and!; try done. intros _. by eexists _, _.
Qed.

Lemma delete_needs_selection_and_consent_witness :
  delete_selected false sample_disk scanned_app
  = Some (show_dialog (DlgConfirmDeletion 4 1013) scanned_app, sample_disk)
  /\ (selected_rows scanned_app = [] \/ false = false)
  /\ file_list (show_dialog (DlgConfirmDeletion 4 1013) scanned_app) = file_list scanned_app.
Proof.
  assert (H1 : delete_selected false sample_disk scanned_app
               = Some (show_dialog (DlgConfirmDeletion 4 1013) scanned_app, sample_disk))
    by reflexivity.
  assert (H2 : selected_rows scanned_app = [] \/ false = false) by (right; reflexivity).
  split; [exact H1|]. split; [exact H2|].
  exact (proj1 (proj2 (delete_needs_selection_and_consent _ _ _ _ _ H1 H2))).
Defined.

(** X10: a deletion touches nothing but the selected files: a path that is
    in no selected row is on disk afterwards exactly as before, no path is
    created or changed (a path is as before or gone), the file list and the
    tree only lose entries, and every row that was not selected is still in
    the tree. *)
Theorem delete_touches_only_selected (confirm : bool) (fs fs' : FileSystem) (a a' : App) :
  delete_selected confirm fs a = Some (a', fs') ->
  (forall p, p ∉ fmap row_path (selected_rows a) -> fs' !! p = fs !! p)
  /\ (forall p, fs' !! p = fs !! p \/ fs' !! p = None)
  /\ file_list a' `sublist_of` file_list a
  /\ tree a' `sublist_of` tree a
  /\ (forall row, row ∈ tree a -> row_selected row = false -> row ∈ tree a').
Proof.
  intros Hdel. unfold delete_selected in Hdel.
  destruct (selected_rows a) as [|row0 rows0] eqn:Hrows.
  { injection Hdel as <- <-. split_and!; try done. by left. }
  rewrite <- Hrows in *. clear row0 rows0 Hrows.
  destruct (selection a) as [sel|] eqn:Hsel; cbn in Hdel; [|done].
  destruct (mapM_read_row_paths _ _ Hsel) as [Hpaths _].
  destruct confirm; cbn in Hdel; injection Hdel as <- <-;
    [|split_and!; try done; by left].
  set (d := delete_files sel _).
  assert (forall p, p ∉ fmap row_path (selected_rows a) -> del_fs d !! p = fs !! p) as H1.
  { intros p Hp. rewrite <- Hpaths in Hp. apply (delete_files_fs_other sel (mkDeletion fs (file_list a) 0 []) p Hp). }
  assert (forall p, del_fs d !! p = fs !! p \/ del_fs d !! p = None) as H2.
  { intros p. apply (delete_files_fs_shrinks sel (mkDeletion fs (file_list a) 0 []) p). }
  assert (del_file_list d `sublist_of` file_list a) as H3.
  { apply (delete_files_store_sublist sel (mkDeletion fs (file_list a) 0 [])). }
  assert (forall failed_paths row,
            row ∈ tree a -> row_selected row = false ->
            row ∈ filter (fun row => keep_row failed_paths row = true) (tree a)) as H5.
  { intros failed_paths row Hrow Hunsel. apply list_elem_of_filter. split; [|done].
    unfold keep_row. by rewrite Hunsel. }
  clearbody d.
  destruct (failed d); cbn [file_list tree show_dialog set_tree set_file_list];
    (split_and!; [done|done|done|apply sublist_filter|apply H5]).
Qed.

Lemma delete_touches_only_selected_witness :
  (exists a' fs', delete_selected true busy_disk scanned_app = Some (a', fs')
                  /\ fs' !! "/data/locked"%string = busy_disk !! "/data/locked"%string)
  /\ "/data/locked"%string ∉ fmap row_path (selected_rows scanned_app).
Proof.
  destruct (delete_selected true busy_disk scanned_app) as [[a' fs']|] eqn:Hdel;
    [|discriminate Hdel].
  assert (Hp : "/data/locked"%string ∉ fmap row_path (selected_rows scanned_app)).
  { apply (bool_decide_unpack _). vm_compute. exact I. }
  split; [|exact Hp]. exists a', fs'. split; [reflexivity|].
  exact (proj1 (delete_touches_only_selected _ _ _ _ _ Hdel) _ Hp).
Defined.

(** ** Which removals fail *)

Lemma refusal_delete_ne fs p r :
  path r <> p -> refusal (delete p fs) r = refusal fs r.
Proof.
  intros Hne. unfold refusal, os_remove. rewrite lookup_delete_ne by done.
  by destruct (fs !! path r) as [[?|]|].
Qed.

Lemma delete_files_failed files d :
  NoDup (fmap path files) ->
  failed (delete_files files d) = failed d ++ omap (refusal (del_fs d)) files.
Proof.
  revert d. induction files as [|[s p] files IH]; intros d Hnd.
  { cbn. by rewrite app_nil_r. }
  rewrite fmap_cons in Hnd. apply NoDup_cons in Hnd as [Hp Hnd].
  change (p ∉ fmap path files) in Hp.
  rewrite delete_files_cons, IH by done.
  cbn [omap list_omap]. unfold refusal at 2. cbn [path snd].
  destruct (os_remove p (del_fs d)) as [fs'|msg] eqn:Hrm; cbn [failed del_fs].
  - f_equal. apply list_omap_ext, Forall2_same_length_lookup. split; [done|].
    intros i r r' Hr Hr'. simplify_eq.
    unfold os_remove in Hrm. destruct (del_fs d !! p) as [[?|]|]; simplify_eq.
    apply refusal_delete_ne. intros <-. apply Hp.
    apply list_elem_of_fmap_2. by eapply list_elem_of_lookup_2.
  - by rewrite <- (assoc_L (++)).
Qed.

Lemma delete_files_fs_selected files d r :
  NoDup (fmap path files) -> r ∈ files ->
  del_fs (delete_files files d) !! path r
  = match refusal (del_fs d) r with
    | Some _ => del_fs d !! path r
    | None => None
    end.
Proof.
  revert d. induction files as [|[s p] files IH]; intros d Hnd Hr;
    [by apply elem_of_nil in Hr|].
  rewrite fmap_cons in Hnd. apply NoDup_cons in Hnd as [Hp Hnd].
  change (p ∉ fmap path files) in Hp.
  rewrite delete_files_cons.
  apply elem_of_cons in Hr as [->|Hr].
  - rewrite delete_files_fs_other by done. unfold refusal. cbn [path snd].
    destruct (os_remove p (del_fs d)) as [fs'|msg] eqn:Hrm; cbn [del_fs]; [|done].
    unfold os_remove in Hrm. destruct (del_fs d !! p) as [[?|]|]; simplify_eq.
    apply lookup_delete_eq.
  - assert (path r <> p) as Hne.
    { intros <-. apply Hp. by apply list_elem_of_fmap_2. }
    rewrite IH by done.
    destruct (os_remove p (del_fs d)) as [fs'|msg] eqn:Hrm; cbn [del_fs]; [|done].
    unfold os_remove in Hrm. destruct (del_fs d !! p) as [[?|]|]; simplify_eq.
    by rewrite refusal_delete_ne, lookup_delete_ne.
Qed.

(** X11: with every file named once in its input, the deletion loop fails
    exactly on the files [os.remove] refuses on the disk as it was when the
    loop started (missing, or not removable), and records them in the order
    of the input with the message of the refusal; a refused file is on disk
    afterwards as it was, a file that was removed is gone, and the count of
    deleted files is the number of the others. *)
Theorem failures_are_the_refused_files (files : list FileRecord) (fs : FileSystem)
    (store : list FileRecord) :
  NoDup (fmap path files) ->
  let d' := delete_files files (mkDeletion fs store 0 []) in
  failed d' = omap (refusal fs) files
  /\ deleted d' = Z.of_nat (length files) - Z.of_nat (length (omap (refusal fs) files))
  /\ (forall r, r ∈ files -> refusal fs r = None -> del_fs d' !! path r = None)
  /\ (forall r, r ∈ files -> is_Some (refusal fs r) ->
        del_fs d' !! path r = fs !! path r)
  /\ (forall r msg, r ∈ files -> refusal fs r = Some (path r, msg) ->
        (path r, msg) ∈ failed d').
Proof.
  intros Hnd d'.
  assert (failed d' = omap (refusal fs) files) as Hfailed.
  { unfold d'. by rewrite delete_files_failed. }
  split; [done|]. split.
  { pose proof (delete_files_count files (mkDeletion fs store 0 [])) as Hc.
    fold d' in Hc. cbn [deleted failed length] in Hc. rewrite Hfailed in Hc. lia. }
  assert (forall r, r ∈ files ->
            del_fs d' !! path r
            = match refusal fs r with Some _ => fs !! path r | None => None end) as Hfs.
  { intros r Hr. unfold d'.
    by rewrite (delete_files_fs_selected files (mkDeletion fs store 0 []) r Hnd Hr). }
  split_and!.
  - intros r Hr Hnone. by rewrite (Hfs r Hr), Hnone.
  - intros r Hr [x Hx]. by rewrite (Hfs r Hr), Hx.
  - intros r msg Hr Href. rewrite Hfailed. apply list_elem_of_omap. by exists r.
Qed.

Lemma failures_are_the_refused_files_witness :
  NoDup (fmap path scanned_files)
  /\ failed busy_deletion
     = [("/data/b.bin", "No such file or directory"); ("/data/sub/c.txt", "file is in use")]%string
  /\ deleted busy_deletion = 2.
Proof.
  assert (H : NoDup (fmap path scanned_files)).
  { apply (bool_decide_unpack _). vm_compute. exact I. }
  destruct (failures_are_the_refused_files scanned_files busy_disk (file_list scanned_app) H)
    as (H1 & H2 & _).
  split; [exact H|]. unfold busy_deletion.
  split; [rewrite H1; reflexivity|rewrite H2; reflexivity].
Defined.

(** ** The tree and the store stay in step *)

(** X12: a deletion keeps the tree and the store in step.  From a state in
    which the tree shows the store row by row and every file is listed once,
    [delete_selected] never fails to read a row back (no [ValueError]), and
    whatever is confirmed and whichever removals fail, a row leaves the tree
    exactly when its record leaves the file list: the state after it is
    again such a state. *)
Theorem deletion_keeps_tree_and_store_in_step (confirm : bool) (fs : FileSystem) (a : App) :
  listed_once a ->
  exists a' fs',
    delete_selected confirm fs a = Some (a', fs') /\ listed_once a'.
Proof.
  intros Ha.
  assert (is_Some (delete_selected confirm fs a)) as [[a' fs'] Hdel].
  { destruct Ha as [Htree _].
    destruct (selection_shown (tree a) (file_list a) Htree) as (sel & Hsel & _).
    fold (selected_rows a) in Hsel. fold (selection a) in Hsel.
    unfold delete_selected. rewrite Hsel.
    destruct (selected_rows a); [by eexists|]. cbn. destruct confirm; by eexists. }
  exists a', fs'. split; [done|]. by eapply delete_selected_listed_once.
Qed.

Lemma deletion_keeps_tree_and_store_in_step_witness :
  listed_once scanned_app
  /\ exists a' fs',
       delete_selected true busy_disk scanned_app = Some (a', fs') /\ listed_once a'.
Proof.
  assert (H : listed_once scanned_app) by exact scanned_app_listed_once.
  split; [exact H|]. exact (deletion_keeps_tree_and_store_in_step true busy_disk scanned_app H).
Defined.

(** X13: a scan of a walk that yields no file twice leaves, however it ends,
    a tree that shows the file list row by row and a file list in which every
    path occurs once. *)
Theorem scan_lists_every_file_once (os_walk : string -> Walk) (stop : option nat) (a : App) :
  scanning a = false ->
  NoDup (fmap path (walk_records (os_walk (path_var a)))) ->
  listed_once (run_scan os_walk stop a).
Proof.
  intros Hidle Hnd. eapply run_scan_listed_once; [by apply start_scan_idle|].
  by rewrite appended_loop_reads.
Qed.

Lemma scan_lists_every_file_once_witness :
  scanning chosen_app = false
  /\ NoDup (fmap path (walk_records (sample_walk (path_var chosen_app))))
  /\ listed_once (run_scan sample_walk (Some 4%nat) chosen_app).
Proof.
  assert (H1 : scanning chosen_app = false) by reflexivity.
  assert (H2 : NoDup (fmap path (walk_records (sample_walk (path_var chosen_app))))).
  { apply (bool_decide_unpack _). vm_compute. exact I. }
  split; [exact H1|]. split; [exact H2|].
  exact (scan_lists_every_file_once sample_walk (Some 4%nat) chosen_app H1 H2).
Defined.

(** ** The warning after a deletion with failures *)

(** X14: the warning lists at most ten failures, the first ones in their
    order, and the line "... and N more" appears exactly when there are more
    than ten, with [N] the number of the failures not listed. *)
Theorem fail_msg_lists_ten (failed : list (string * string)) :
  fst (fail_msg failed) `prefix_of` failed
  /\ length (fst (fail_msg failed)) = Nat.min 10 (length failed)
  /\ (snd (fail_msg failed) = None <-> (length failed <= 10)%nat)
  /\ forall more, snd (fail_msg failed) = Some more ->
       0 < more /\ Z.of_nat (length (fst (fail_msg failed))) + more = Z.of_nat (length failed).
Proof.
  unfold fail_msg. cbn [fst snd]. split_and!.
  - apply prefix_take.
  - apply length_take.
  - destruct (10 <? Z.of_nat (length failed)) eqn:H.
    + apply Z.ltb_lt in H. split; [done|lia].
    + apply Z.ltb_ge in H. split; [lia|done].
  - intros more. destruct (10 <? Z.of_nat (length failed)) eqn:H; [|done].
    apply Z.ltb_lt in H. intros [= <-]. rewrite length_take. lia.
Qed.

Example fail_msg_of_twelve :
  length (failed (delete_files twelve_missing (mkDeletion ∅ [] 0 []))) = 12%nat
  /\ length (fst (fail_msg (failed (delete_files twelve_missing (mkDeletion ∅ [] 0 []))))) = 10%nat
  /\ snd (fail_msg (failed (delete_files twelve_missing (mkDeletion ∅ [] 0 [])))) = Some 2.
Proof. split_and!; reflexivity. Qed.

(** ** The selection label *)

Lemma fold_left_add_total (l : list FileRecord) (acc : Z) :
  fold_left Z.add (fmap size l) acc = acc + total_size l.
Proof.
  revert acc. induction l as [|r l IH]; intros acc; cbn; [lia|].
  rewrite IH. unfold total_size. lia.
Qed.

Lemma mapM_sizes (rows : list TreeRow) (sel : list FileRecord) :
  mapM read_row rows = Some sel ->
  mapM (fun row => int_of_str (remove_commas (row_size row))) rows = Some (fmap size sel).
Proof.
  intros H%mapM_Some_1. apply mapM_Some_2.
  induction H as [|row r rows sel Hr _ IH]; cbn; constructor; [|done].
  unfold read_row in Hr. destruct (int_of_str _); cbn in Hr; by simplify_eq.
Qed.

(** X15: the selection label and the confirmation dialog agree: for a tree
    whose selected rows read back, a run of [update_info] writes the number
    of selected rows and the sum of their sizes, and these are the number and
    the total [delete_selected] asks the user to confirm; with no row
    selected the label is empty. *)
Theorem selection_info_matches_confirmation (fs fs' : FileSystem) (a a' : App) :
  delete_selected false fs a = Some (a', fs') ->
  (selected_rows a = [] /\ update_info a = Some InfoEmpty)
  \/ exists sel,
       selection a = Some sel
       /\ update_info a = Some (InfoSelected (length sel) (total_size sel))
       /\ last (dialogs a') = Some (DlgConfirmDeletion (length sel) (total_size sel)).
Proof.
  intros Hdel. unfold delete_selected in Hdel. unfold update_info.
  destruct (selected_rows a) as [|row rows] eqn:Hrows; [by left|].
  right. rewrite <- Hrows in *.
  destruct (selection a) as [sel|] eqn:Hsel; cbn in Hdel; [|done].
  injection Hdel as <- _. exists sel. split; [done|].
  unfold selection in Hsel.
  destruct (mapM_read_row_paths _ _ Hsel) as [_ Hlen].
  rewrite (mapM_sizes _ _ Hsel). cbn. rewrite fold_left_add_total, Hlen. cbn.
  split; [by rewrite Hrows|]. by rewrite last_snoc.
Qed.

Lemma selection_info_matches_confirmation_witness :
  delete_selected false sample_disk scanned_app
  = Some (show_dialog (DlgConfirmDeletion 4 1013) scanned_app, sample_disk)
  /\ update_info scanned_app = Some (InfoSelected 4 1013).
Proof.
  assert (H : delete_selected false sample_disk scanned_app
              = Some (show_dialog (DlgConfirmDeletion 4 1013) scanned_app, sample_disk))
    by reflexivity.
  split; [exact H|].
  destruct (selection_info_matches_confirmation _ _ _ _ H) as [[Hno _]|(sel & Hsel & Hinfo & _)].
  - discriminate Hno.
  - reflexivity.
Defined.

(** ** Message boxes of a scan *)

(** X17: a scan opens no message box unless it meets an exception: when
    neither [os.walk] nor the reading of a size raises anything but
    [OSError]s, the boxes shown after the scan are those shown before it,
    however the scan is stopped; and in any case a scan adds at most one box,
    a "Scan Error". *)
Theorem scan_without_exception_shows_no_box (os_walk : string -> Walk) (stop : option nat)
    (a : App) :
  scanning a = false ->
  (exists errors : list string,
     dialogs (run_scan os_walk stop a) = dialogs a ++ fmap DlgScanError errors
     /\ (length errors <= 1)%nat)
  /\ (walk_raises (os_walk (path_var a)) = false ->
      dialogs (run_scan os_walk stop a) = dialogs a).
Proof.
  intros Hidle.
  destruct (run_scan_pre os_walk stop a Hidle)
    as (pre & Hrun & _ & _ & _ & errors & Hd & Hlen & Hnone).
  cbn zeta in Hrun.
  assert (dialogs (run_scan os_walk stop a) = dialogs pre) as ->.
  { rewrite Hrun. by destruct (landed stop (S _)). }
  split; [by exists errors|].
  intros Hno. by rewrite Hd, (Hnone Hno), app_nil_r.
Qed.

Lemma scan_without_exception_shows_no_box_witness :
  scanning chosen_app = false
  /\ walk_raises (sample_walk (path_var chosen_app)) = false
  /\ dialogs (run_scan sample_walk (Some 2%nat) chosen_app) = dialogs chosen_app.
Proof.
  assert (H1 : scanning chosen_app = false) by reflexivity.
  assert (H2 : walk_raises (sample_walk (path_var chosen_app)) = false) by reflexivity.
  split; [exact H1|]. split; [exact H2|].
  exact (proj2 (scan_without_exception_shows_no_box sample_walk (Some 2%nat) chosen_app H1) H2).
Defined.

(** ** Choosing a folder, then scanning *)

(** X16: the scan walks the folder chosen last: after [browse_folder] with a
    folder (not the empty answer of a dismissed dialog) in an idle state, a
    scan lists the records of [os.walk] for that folder; dismissing the
    dialog changes nothing, and choosing a folder neither starts a scan nor
    touches the file list or the tree. *)
Theorem scan_walks_chosen_folder (os_walk : string -> Walk) (stop : option nat)
    (folder : string) (a : App) :
  scanning a = false ->
  folder <> EmptyString ->
  file_list (run_scan os_walk stop (browse_folder folder a))
  = sort_desc (appended (passed stop (loop_reads (os_walk folder))))
  /\ scanning (browse_folder folder a) = false
  /\ file_list (browse_folder folder a) = file_list a
  /\ tree (browse_folder folder a) = tree a
  /\ scan_btn (widgets (browse_folder folder a)) = true
  /\ browse_folder EmptyString a = a.
Proof.
  intros Hidle Hfolder.
  assert (browse_folder folder a
          = set_widgets (mkWidgets true (stop_btn (widgets a)) (browse_btn (widgets a))
                           (delete_btn (widgets a)) (select_all_btn (widgets a))
                           (clear_btn (widgets a)) (progress (widgets a)))
              (set_path_var folder a)) as Hb.
  { unfold browse_folder. by rewrite decide_False. }
  split_and!; try (by rewrite Hb).
  - rewrite run_scan_file_list by (by rewrite Hb). by rewrite Hb.
  - unfold browse_folder. by rewrite decide_True.
Qed.

Lemma scan_walks_chosen_folder_witness :
  scanning init = false
  /\ "/data"%string <> EmptyString
  /\ file_list (run_scan sample_walk None (browse_folder "/data" init))
     = [(500, "/data/b.bin"); (500, "/data/sub/d.iso"); (10, "/data/a.bin");
        (3, "/data/sub/c.txt")]%string.
Proof.
  assert (H1 : scanning init = false) by reflexivity.
  assert (H2 : "/data"%string <> EmptyString) by discriminate.
  split; [exact H1|]. split; [exact H2|].
  rewrite (proj1 (scan_walks_chosen_folder sample_walk None "/data" init H1 H2)).
  reflexivity.
Defined.

(** ** After a deletion *)

Lemma filter_none {A} (P : A -> Prop) `{forall x, Decision (P x)} (l : list A) :
  (forall x, ~ P x) -> filter P l = [].
Proof.
  intros Hno. induction l as [|x l IH]; [done|]. by rewrite filter_cons, decide_False.
Qed.

(** X18: after a confirmed deletion the rows that are still selected are
    exactly the selected rows of the files whose removal failed, in their
    order, so the same button retries just these; when nothing failed no row
    is selected any more.  The last message box reports the outcome: the
    number deleted and the failures, or, without failures, the number deleted
    and the total size of the selection. *)
Theorem failed_rows_stay_selected (fs fs' : FileSystem) (a a' : App) :
  delete_selected true fs a = Some (a', fs') ->
  selected_rows a ≠ [] ->
  exists sel,
    selection a = Some sel
    /\ selected_rows a'
       = filter (fun row =>
                   row_path row
                   ∈ fmap fst (failed (delete_files sel (mkDeletion fs (file_list a) 0 []))))
           (selected_rows a)
    /\ (failed (delete_files sel (mkDeletion fs (file_list a) 0 [])) = [] ->
        selected_rows a' = []
        /\ last (dialogs a')
           = Some (DlgDeletionComplete (Z.of_nat (length sel)) (total_size sel)))
    /\ (failed (delete_files sel (mkDeletion fs (file_list a) 0 [])) ≠ [] ->
        last (dialogs a')
        = Some (DlgDeletionErrors
                  (Z.of_nat (length sel)
                   - Z.of_nat (length (failed (delete_files sel
                                                 (mkDeletion fs (file_list a) 0 [])))))
                  (failed (delete_files sel (mkDeletion fs (file_list a) 0 []))))).
Proof.
  intros Hdel Hrows.
  destruct (selection a) as [sel|] eqn:Hsel; last first.
  { unfold delete_selected in Hdel. rewrite Hsel in Hdel. by destruct (selected_rows a). }
  exists sel. split; [done|].
  destruct (delete_selected_fields fs a sel Hsel Hrows) as (a'' & Heq & _ & Htr).
  pose proof Hdel as Hdel'. rewrite Heq in Hdel'. injection Hdel' as -> _.
  rewrite (delete_selected_confirmed fs a sel Hsel Hrows) in Hdel. cbn zeta in Hdel.
  change (file_list (show_dialog _ a)) with (file_list a) in Hdel.
  pose proof (delete_files_count sel (mkDeletion fs (file_list a) 0 [])) as Hcount.
  cbn [deleted failed length] in Hcount.
  set (d := delete_files sel (mkDeletion fs (file_list a) 0 [])) in *.
  assert (selected_rows a'
          = filter (fun row => row_path row ∈ fmap fst (failed d)) (selected_rows a)) as Hsel'.
  { unfold selected_rows. rewrite Htr, !list_filter_filter. apply list_filter_iff.
    intros row. unfold keep_row.
    rewrite orb_true_iff, negb_true_iff, bool_decide_eq_true.
    destruct (row_selected row); split; intros [? ?]; split; try done.
    - by destruct H0.
    - by right. }
  split; [done|]. split.
  - intros Hnone. rewrite Hnone in Hdel, Hsel', Hcount. injection Hdel as <- _. split.
    + rewrite Hsel'. apply filter_none. intros row. apply not_elem_of_nil.
    + cbn. rewrite last_snoc. do 2 f_equal. cbn in Hcount. lia.
  - intros Hsome. destruct (failed d) as [|f fl] eqn:Hf; [done|].
    injection Hdel as <- _. cbn [dialogs show_dialog]. rewrite last_snoc. do 2 f_equal.
    cbn [length] in *. lia.
Qed.

Lemma failed_rows_stay_selected_witness :
  selected_rows scanned_app ≠ []
  /\ exists a' fs',
       delete_selected true busy_disk scanned_app = Some (a', fs')
       /\ exists sel,
            selection scanned_app = Some sel
            /\ selected_rows a'
               = filter (fun row =>
                           row_path row
                           ∈ fmap fst (failed (delete_files sel
                                                 (mkDeletion busy_disk (file_list scanned_app) 0 []))))
                   (selected_rows scanned_app).
Proof.
  assert (H : selected_rows scanned_app ≠ []) by (intros H; discriminate H).
  split; [exact H|].
  destruct (delete_selected true busy_disk scanned_app) as [[a' fs']|] eqn:Hdel;
    [|discriminate Hdel].
  exists a', fs'. split; [reflexivity|].
  destruct (failed_rows_stay_selected busy_disk fs' scanned_app a' Hdel H)
    as (sel & Hsel & Hrows & _).
  exists sel. split; [exact Hsel|exact Hrows].
Defined.

Example retry_after_failures :
  (fun r => fmap row_path (selected_rows (fst r)))
    <$> delete_selected true busy_disk scanned_app
  = Some ["/data/b.bin"; "/data/sub/c.txt"]%string.
Proof. reflexivity. Qed.

(** ** Stopping earlier or later *)

Lemma insert_desc_skip x l : l `sublist_of` insert_desc x l.
Proof.
  induction l as [|y l IH]; cbn; [by apply sublist_cons|].
  destruct (size x <? size y); [by apply sublist_skip|by apply sublist_cons].
Qed.

Lemma sorted_sublist_HdRel x y s t :
  Sorted size_ge (y :: t) -> s `sublist_of` t -> size y <= size x -> HdRel size_ge x s.
Proof.
  intros Hsorted Hsub Hyx. destruct s as [|z s]; constructor.
  pose proof size_ge_transitive as Htrans.
  apply Sorted_StronglySorted in Hsorted; [|done].
  apply StronglySorted_inv in Hsorted as [_ Hall].
  rewrite Forall_forall in Hall.
  assert (Hz : z ∈ t) by (eapply elem_of_sublist; [|exact Hsub]; left).
  apply Hall in Hz. unfold size_ge in *. lia.
Qed.

Lemma insert_desc_sublist x s t :
  s `sublist_of` t -> Sorted size_ge t ->
  insert_desc x s `sublist_of` insert_desc x t.
Proof.
  induction 1 as [|y s t Hsub IH|y s t Hsub IH]; intros Hsorted; [done| |].
  - cbn. destruct (size x <? size y) eqn:Hxy.
    + apply sublist_skip, IH. by apply Sorted_inv in Hsorted as [? _].
    + by apply sublist_skip, sublist_skip.
  - cbn [insert_desc]. destruct (size x <? size y) eqn:Hxy.
    + apply sublist_cons, IH. by apply Sorted_inv in Hsorted as [? _].
    + apply Z.ltb_ge in Hxy.
      rewrite (insert_desc_head x s) by (by eapply sorted_sublist_HdRel).
      by apply sublist_skip, sublist_cons.
Qed.

Lemma sort_desc_sublist l1 l2 :
  l1 `sublist_of` l2 -> sort_desc l1 `sublist_of` sort_desc l2.
Proof.
  induction 1 as [|x l1 l2 _ IH|x l1 l2 _ IH]; cbn; [done| |].
  - apply insert_desc_sublist; [done|apply sort_desc_sorted].
  - etrans; [exact IH|apply insert_desc_skip].
Qed.

(** X19: a stop only cuts the scan short.  A scan stopped at one read of the
    flag lists, in the same order, a part of what the same scan lists when
    the stop lands at a later read, and this is a part of what the scan
    lists when it is not stopped; a stop that lands after the last read of
    the loops loses nothing (the scan still ends as cancelled). *)
Theorem stop_only_cuts_scan_short (os_walk : string -> Walk) (n m : nat) (a : App) :
  scanning a = false ->
  (n <= m)%nat ->
  file_list (run_scan os_walk (Some n) a) `sublist_of` file_list (run_scan os_walk (Some m) a)
  /\ file_list (run_scan os_walk (Some m) a) `sublist_of` file_list (run_scan os_walk None a)
  /\ ((length (loop_reads (os_walk (path_var a))) <= n)%nat ->
      file_list (run_scan os_walk (Some n) a) = file_list (run_scan os_walk None a)).
Proof.
  intros Hidle Hnm. rewrite !run_scan_file_list by done. split_and!.
  - apply sort_desc_sublist, appended_sublist. cbn [passed].
    replace n with (n `min` m)%nat by lia. rewrite <- take_take. apply sublist_take.
  - apply sort_desc_sublist, appended_sublist, passed_sublist.
  - intros Hlen. cbn [passed]. by rewrite firstn_all2.
Qed.

Lemma stop_only_cuts_scan_short_witness :
  scanning chosen_app = false
  /\ (2 <= 4)%nat
  /\ file_list (run_scan sample_walk (Some 2%nat) chosen_app)
     `sublist_of` file_list (run_scan sample_walk (Some 4%nat) chosen_app)
  /\ file_list (run_scan sample_walk (Some 4%nat) chosen_app)
     `sublist_of` file_list (run_scan sample_walk None chosen_app).
Proof.
  assert (H1 : scanning chosen_app = false) by reflexivity.
  assert (H2 : (2 <= 4)%nat) by lia.
  destruct (stop_only_cuts_scan_short sample_walk 2%nat 4%nat chosen_app H1 H2) as (Ha & Hb & _).
  split_and!; [exact H1|exact H2|exact Ha|exact Hb].
Defined.

Example stop_at_second_and_fourth_read :
  file_list (run_scan sample_walk (Some 2%nat) chosen_app) = [(10, "/data/a.bin")]%string
  /\ fmap path (file_list (run_scan sample_walk (Some 4%nat) chosen_app))
     = ["/data/b.bin"; "/data/a.bin"]%string.
Proof. split; reflexivity. Qed.

Lemma fail_msg_lists_ten_witness :
  snd (fail_msg (failed (delete_files twelve_missing (mkDeletion ∅ [] 0 [])))) = Some 2
  /\ 0 < 2
  /\ Z.of_nat (length (fst (fail_msg (failed (delete_files twelve_missing
                                                (mkDeletion ∅ [] 0 []))))))
     + 2
     = Z.of_nat (length (failed (delete_files twelve_missing (mkDeletion ∅ [] 0 [])))).
Proof.
  assert (H : snd (fail_msg (failed (delete_files twelve_missing (mkDeletion ∅ [] 0 []))))
              = Some 2) by reflexivity.
  split; [exact H|].
  destruct (fail_msg_lists_ten (failed (delete_files twelve_missing (mkDeletion ∅ [] 0 []))))
    as (_ & _ & _ & Hmore).
  exact (Hmore 2 H).
Defined.
